(** * PDF page extractor: the page-selection parser and the two handlers

    A shallow embedding of [src/App.tsx]: [parsePageString], the catch
    clause of [handleFileSelect] and [handleExtract].

    Conventions of the model.
    - A JavaScript string is a [string]; each [ascii] stands for one code
      unit in the range 0..255.
    - A JavaScript number is a [number]: [NaN], the two infinities, or a
      finite value kept as an exact rational in lowest terms.  The exact
      value and the double agree on every integer of magnitude below 2^53
      and on every short binary fraction, which covers page numbers; the
      rounding of long decimal literals is not modelled.  The two zeros
      are one value.
    - [max] is the page count held in the component state, an integer. *)

From Stdlib Require Import ZArith QArith Qround Qreduction Bool List Lia Lqa.
From Stdlib Require Import Ascii String Sorting.Sorted Sorting.Permutation.
Import ListNotations.

Open Scope string_scope.
Open Scope Z_scope.

(** ** Strings *)

Module Str.

Definition code (c : ascii) : N := N_of_ascii c.

(** WhiteSpace and LineTerminator code units below 256: TAB, LF, VT, FF,
    CR, SP and NBSP.  [String.prototype.trim] and the string-to-number
    conversion strip the same set. *)
Definition is_ws (c : ascii) : bool :=
  let n := code c in
  ((9 <=? n) && (n <=? 13) || (n =? 32) || (n =? 160))%N.

Fixpoint all_ws (s : string) : bool :=
  match s with
  | EmptyString => true
  | String c s' => is_ws c && all_ws s'
  end.

Fixpoint trimStart (s : string) : string :=
  match s with
  | EmptyString => EmptyString
  | String c s' => if is_ws c then trimStart s' else s
  end.

Fixpoint trimEnd (s : string) : string :=
  match s with
  | EmptyString => EmptyString
  | String c s' =>
      match trimEnd s' with
      | EmptyString => if is_ws c then EmptyString else String c EmptyString
      | t => String c t
      end
  end.

(** [s.trim()] *)
Definition trim (s : string) : string := trimEnd (trimStart s).

(** First piece and remaining pieces of [s] cut at every [sep]. *)
Fixpoint split_at (sep : ascii) (s : string) : string * list string :=
  match s with
  | EmptyString => (EmptyString, [])
  | String c s' =>
      let (p, ps) := split_at sep s' in
      if Ascii.eqb c sep then (EmptyString, p :: ps) else (String c p, ps)
  end.

(** [s.split(sep)] for a one-character separator: never the empty array. *)
Definition split (sep : ascii) (s : string) : list string :=
  let (p, ps) := split_at sep s in p :: ps.

(** [ps.join(sep)] *)
Fixpoint join (sep : ascii) (ps : list string) : string :=
  match ps with
  | [] => EmptyString
  | [p] => p
  | p :: ps' => p ++ String sep (join sep ps')
  end.

(** [s.includes(c)] for a one-character needle. *)
Fixpoint includes_char (c : ascii) (s : string) : bool :=
  match s with
  | EmptyString => false
  | String d s' => Ascii.eqb d c || includes_char c s'
  end.

(** [s.includes(needle)] *)
Fixpoint includes (needle s : string) : bool :=
  String.prefix needle s ||
  match s with
  | EmptyString => false
  | String _ s' => includes needle s'
  end.

(** [toLowerCase] on one code unit below 256: A-Z and the Latin-1 capitals
    (0xC0-0xDE except the multiplication sign 0xD7) move up by 32. *)
Definition lower_char (c : ascii) : ascii :=
  let n := code c in
  if ((65 <=? n) && (n <=? 90) || (192 <=? n) && (n <=? 222) && negb (n =? 215))%N
  then ascii_of_N (n + 32) else c.

Fixpoint toLowerCase (s : string) : string :=
  match s with
  | EmptyString => EmptyString
  | String c s' => String (lower_char c) (toLowerCase s')
  end.

(** Decimal digits of a non-negative integer, most significant first. *)
Definition digit_char (d : Z) : ascii := ascii_of_N (48 + Z.to_N d).

Fixpoint dec_digits (fuel : nat) (n : Z) (acc : string) : string :=
  match fuel with
  | O => acc
  | S fuel' =>
      let acc' := String (digit_char (n mod 10)) acc in
      if n <? 10 then acc' else dec_digits fuel' (n / 10) acc'
  end.

Definition dec_nonneg (n : Z) : string :=
  dec_digits (S (Z.to_nat (Z.log2 n))) n EmptyString.

(** The text of an integer inside a template literal.  (JavaScript turns to
    exponent notation from 10^21 on; page counts stay far below.) *)
Definition dec (n : Z) : string :=
  if n <? 0 then String "-" (dec_nonneg (- n)) else dec_nonneg n.

End Str.

(** ** Numbers *)

Module Num.

Inductive number : Type :=
  | NaN
  | Infinity (negative : bool)
  | Finite (q : Q).

Definition of_Z (z : Z) : number := Finite (inject_Z z).

(** [isNaN(x)] *)
Definition isNaN (x : number) : bool :=
  match x with NaN => true | _ => false end.

(** [x < y]; false as soon as one side is [NaN]. *)
Definition lt (x y : number) : bool :=
  match x, y with
  | Finite a, Finite b => negb (Qle_bool b a)
  | Infinity true, Finite _ => true
  | Infinity true, Infinity false => true
  | Finite _, Infinity false => true
  | _, _ => false
  end.

(** [x > y] *)
Definition gt (x y : number) : bool := lt y x.

(** Value of a digit character in the given base, if it is one. *)
Definition digit_of (base : Z) (c : ascii) : option Z :=
  let n := Z.of_N (Str.code c) in
  let d := if (48 <=? n) && (n <=? 57) then n - 48
           else if (97 <=? n) && (n <=? 122) then n - 87
           else if (65 <=? n) && (n <=? 90) then n - 55
           else base in
  if d <? base then Some d else None.

(** Reads the longest run of digits at the front of [s]: the value
    accumulated onto [acc], the number of digits read onto [n], and
    the rest of the string. *)
Fixpoint scan_digits (base acc : Z) (n : nat) (s : string) : Z * nat * string :=
  match s with
  | EmptyString => (acc, n, s)
  | String c s' =>
      match digit_of base c with
      | Some d => scan_digits base (base * acc + d) (S n) s'
      | None => (acc, n, s)
      end
  end.

(** ExponentPart, optional, up to the end of the string. *)
Definition exponent_part (s : string) : option Z :=
  match s with
  | EmptyString => Some 0
  | String c s' =>
      if Ascii.eqb c "e" || Ascii.eqb c "E" then
        let '(neg, digits) :=
          match s' with
          | String d r =>
              if Ascii.eqb d "+" then (false, r)
              else if Ascii.eqb d "-" then (true, r)
              else (false, s')
          | EmptyString => (false, s')
          end in
        match scan_digits 10 0 0 digits with
        | (v, S _, EmptyString) => Some (if neg then - v else v)
        | _ => None
        end
      else None
  end.

(** The mathematical value [m * 10^e], in lowest terms. *)
Definition decimal_value (m e : Z) : Q := Qred (inject_Z m * Qpower 10 e).

(** StrUnsignedDecimalLiteral without [Infinity]:
    digits [.digits] [exponent], or [.digits] [exponent]. *)
Definition unsigned_decimal (s : string) : option Q :=
  let '(ip, ni, r1) := scan_digits 10 0 0 s in
  let '(m, nf, r2) :=
    match r1 with
    | String c r => if Ascii.eqb c "." then scan_digits 10 ip 0 r else (ip, O, r1)
    | EmptyString => (ip, O, r1)
    end in
  if (ni + nf =? 0)%nat then None
  else match exponent_part r2 with
       | Some e => Some (decimal_value m (e - Z.of_nat nf))
       | None => None
       end.

(** NonDecimalIntegerLiteral: 0x, 0o or 0b and at least one digit. *)
Definition radix_literal (s : string) : option Z :=
  match s with
  | String z (String c r) =>
      let base :=
        if Ascii.eqb c "x" || Ascii.eqb c "X" then 16
        else if Ascii.eqb c "o" || Ascii.eqb c "O" then 8
        else if Ascii.eqb c "b" || Ascii.eqb c "B" then 2
        else 0 in
      if Ascii.eqb z "0" && negb (base =? 0) then
        match scan_digits base 0 0 r with
        | (v, S _, EmptyString) => Some v
        | _ => None
        end
      else None
  | _ => None
  end.

(** StringNumericLiteral once the white space is stripped. *)
Definition numeric_literal (t : string) : number :=
  match t with
  | EmptyString => Finite 0
  | String c r =>
      match radix_literal t with
      | Some v => of_Z v
      | None =>
          let '(neg, u) :=
            if Ascii.eqb c "+" then (false, r)
            else if Ascii.eqb c "-" then (true, r)
            else (false, t) in
          if String.eqb u "Infinity" then Infinity neg
          else match unsigned_decimal u with
               | Some q => Finite (if neg then Qred (- q) else q)
               | None => NaN
               end
      end
  end.

(** A decimal digit; a string of decimal digits. *)
Definition is_digit (c : ascii) : bool :=
  match digit_of 10 c with Some _ => true | None => false end.

Fixpoint all_digits (s : string) : bool :=
  match s with
  | EmptyString => true
  | String c s' => is_digit c && all_digits s'
  end.

(** [Number(s)] on a string. *)
Definition Number (s : string) : number := numeric_literal (Str.trim s).

End Num.

(** ** The page-selection parser *)

Module Parser.
Import Str Num.

(** What a call produces: the returned value, or the message of the
    [Error] it throws. *)
Inductive result (A : Type) : Type :=
  | Return (value : A)
  | Throw (message : string).
Arguments Return {A} value.
Arguments Throw {A} message.

Definition bind {A B : Type} (r : result A) (k : A -> result B) : result B :=
  match r with
  | Return a => k a
  | Throw m => Throw m
  end.

Notation "x <- r ;; k" := (bind r (fun x => k))
  (at level 61, r at next level, right associativity).

(** The value returned, when there is one. *)
Definition returned {A : Type} (r : result A) : option A :=
  match r with
  | Return a => Some a
  | Throw _ => None
  end.

(** [Set<number>] in insertion order; [pages.add(x)] keeps the set as it
    is when an equal number is already in. *)
Definition has (x : Q) (pages : list Q) : bool := existsb (Qeq_bool x) pages.

Definition add (x : Q) (pages : list Q) : list Q :=
  if has x pages then pages else pages ++ [x].

(** [for (let i = start; i <= end; i++) pages.add(i - 1)], with the
    number of rounds left as fuel. *)
Fixpoint range_loop (fuel : nat) (i end_ : Q) (pages : list Q) : list Q :=
  match fuel with
  | O => pages
  | S fuel' =>
      if Qle_bool i end_
      then range_loop fuel' (Qred (i + 1)) end_ (add (Qred (i - 1)) pages)
      else pages
  end.

(** The rounds the loop makes from [start] to [end_]. *)
Definition rounds (start end_ : Q) : nat := Z.to_nat (Qfloor (end_ - start) + 1).

(** The loop is entered only after the guard, which with a finite [max]
    leaves a finite [start] and a finite [end_]. *)
Definition add_range (start end_ : number) (pages : list Q) : list Q :=
  match start, end_ with
  | Finite s, Finite e => range_loop (rounds s e) s e pages
  | _, _ => pages
  end.

Definition dquote : ascii := "034"%char.

Definition quoted (part : string) : string :=
  String dquote part ++ String dquote EmptyString.

(** [`Invalid range: "${part}". Pages must be between 1 and ${max}.`] *)
Definition invalid_range (part : string) (max : Z) : string :=
  "Invalid range: " ++ quoted part ++ ". Pages must be between 1 and " ++ dec max ++ ".".

(** [`Invalid page: "${part}". Pages must be between 1 and ${max}.`] *)
Definition invalid_page (part : string) (max : Z) : string :=
  "Invalid page: " ++ quoted part ++ ". Pages must be between 1 and " ++ dec max ++ ".".

Definition no_valid_pages : string := "Please enter valid page numbers.".

Definition no_pages_selected : string :=
  "No pages selected. Please enter page numbers to extract.".

(** [const [start, end] = part.split('-').map(Number)]: an element the
    array does not have is [undefined], which [isNaN] and the comparisons
    treat as [NaN]. *)
Definition element (k : nat) (numbers : list number) : number := nth k numbers NaN.

(** The body of the [for (const part of parts)] loop. *)
Definition parse_part (part : string) (max : Z) (pages : list Q) : result (list Q) :=
  if includes_char "-" part then
    let numbers := map Number (split "-" part) in
    let start := element 0 numbers in
    let end_ := element 1 numbers in
    if isNaN start || isNaN end_ || gt start end_ || lt start (of_Z 1) || gt end_ (of_Z max)
    then Throw (invalid_range part max)
    else Return (add_range start end_ pages)
  else
    let page := Number part in
    if isNaN page || lt page (of_Z 1) || gt page (of_Z max)
    then Throw (invalid_page part max)
    else
      (* past the guard [page] is finite, [max] being finite *)
      match page with
      | Finite p => Return (add (Qred (p - 1)) pages)
      | _ => Return pages
      end.

Fixpoint for_parts (parts : list string) (max : Z) (pages : list Q) : result (list Q) :=
  match parts with
  | [] => Return pages
  | part :: rest =>
      pages' <- parse_part part max pages ;;
      for_parts rest max pages'
  end.

(** [Array.from(pages).sort((a, b) => a - b)] *)
Fixpoint insert_sorted (x : Q) (l : list Q) : list Q :=
  match l with
  | [] => [x]
  | y :: l' => if Qle_bool x y then x :: l else y :: insert_sorted x l'
  end.

Fixpoint sort (l : list Q) : list Q :=
  match l with
  | [] => []
  | x :: l' => insert_sorted x (sort l')
  end.

(** [input.split(',').map(p => p.trim())] *)
Definition parts_of (input : string) : list string := map trim (split "," input).

Definition parsePageString (input : string) (max : Z) : result (list Q) :=
  pages <- for_parts (parts_of input) max [] ;;
  if (List.length pages =? 0)%nat && (0 <? String.length input)%nat
  then Throw no_valid_pages
  else if (List.length pages =? 0)%nat
  then Throw no_pages_selected
  else Return (sort pages).

End Parser.

(** ** The two handlers of the component *)

Module App.
Import Str Parser.

(** What a [catch (e)] clause looks at: [e.constructor.name] and
    [e.message] ([None] when the thrown value has no message). *)
Record Thrown : Type := {
  constructor_name : string;
  message : option string
}.

(** What an awaited call of a collaborator does. *)
Inductive outcome (A : Type) : Type :=
  | Done (value : A)
  | Raised (e : Thrown).
Arguments Done {A} value.
Arguments Raised {A} e.

Definition then_ {A B : Type} (o : outcome A) (k : A -> outcome B) : outcome B :=
  match o with
  | Done a => k a
  | Raised e => Raised e
  end.

Notation "x <~ o ;; k" := (then_ o (fun x => k))
  (at level 61, o at next level, right associativity).

(** [throw new Error(message)] as the handler's [catch] sees it. *)
Definition thrown_by {A : Type} (r : result A) : outcome A :=
  match r with
  | Return a => Done a
  | Throw m => Raised {| constructor_name := "Error"; message := Some m |}
  end.

Definition not_ready : string :=
  "PDF libraries are not ready. Please wait a moment and try again.".

Definition unreadable : string :=
  "Could not read the PDF file. Please ensure it is a valid, uncorrupted file.".

Definition password_protected : string :=
  "This PDF is password-protected. This application cannot process encrypted or password-protected files.".

Definition unexpected : string :=
  "An unexpected error occurred during PDF processing.".

(** [e.constructor.name === 'PDFInvalidPasswordError' ||
     (e.message && e.message.toLowerCase().includes('encrypted'))] *)
Definition signals_password (e : Thrown) : bool :=
  String.eqb (constructor_name e) "PDFInvalidPasswordError" ||
  match message e with
  | Some m => negb (String.eqb m EmptyString) && includes "encrypted" (toLowerCase m)
  | None => false
  end.

(** The message the [catch] of [handleFileSelect] shows. *)
Definition userFriendlyError (e : Thrown) : string :=
  if signals_password e then password_protected else unreadable.

(** [e.message || fallback] *)
Definition message_or (e : Thrown) (fallback : string) : string :=
  match message e with
  | Some m => if String.eqb m EmptyString then fallback else m
  | None => fallback
  end.

Section Handlers.

(** The browser file, its bytes, a loaded document and a copied page are
    opaque to the component. *)
Variables File Bytes Doc Page : Type.

Record Collaborators : Type := {
  arrayBuffer : File -> outcome Bytes;          (* [file.arrayBuffer()] *)
  load : Bytes -> outcome Doc;                  (* [PDFDocument.load] *)
  getPageCount : Doc -> Z;
  copyPages : Doc -> list Q -> outcome (list Page);
                                                (* [create], [copyPages], [addPage] *)
  save : list Page -> outcome Bytes;            (* [newPdfDoc.save()] *)
  createObjectURL : Bytes -> outcome string     (* [new Blob], [URL.createObjectURL] *)
}.

(** The React state of [App]. *)
Record State : Type := {
  file : option File;
  totalPages : Z;
  pageInput : string;
  isProcessing : bool;
  error : option string;
  outputPdfUrl : option string;
  outputPdfBytes : option Bytes;
  librariesReady : bool
}.

Definition resetState (st : State) : State :=
  {| file := None; totalPages := 0; pageInput := EmptyString;
     isProcessing := false; error := None;
     outputPdfUrl := None; outputPdfBytes := None;
     librariesReady := librariesReady st |}.

Definition setError (e : option string) (st : State) : State :=
  {| file := file st; totalPages := totalPages st; pageInput := pageInput st;
     isProcessing := isProcessing st; error := e;
     outputPdfUrl := outputPdfUrl st; outputPdfBytes := outputPdfBytes st;
     librariesReady := librariesReady st |}.

Definition setFile (f : option File) (st : State) : State :=
  {| file := f; totalPages := totalPages st; pageInput := pageInput st;
     isProcessing := isProcessing st; error := error st;
     outputPdfUrl := outputPdfUrl st; outputPdfBytes := outputPdfBytes st;
     librariesReady := librariesReady st |}.

Definition setTotalPages (n : Z) (st : State) : State :=
  {| file := file st; totalPages := n; pageInput := pageInput st;
     isProcessing := isProcessing st; error := error st;
     outputPdfUrl := outputPdfUrl st; outputPdfBytes := outputPdfBytes st;
     librariesReady := librariesReady st |}.

Definition setIsProcessing (b : bool) (st : State) : State :=
  {| file := file st; totalPages := totalPages st; pageInput := pageInput st;
     isProcessing := b; error := error st;
     outputPdfUrl := outputPdfUrl st; outputPdfBytes := outputPdfBytes st;
     librariesReady := librariesReady st |}.

Definition setOutput (url : option string) (bytes : option Bytes) (st : State) : State :=
  {| file := file st; totalPages := totalPages st; pageInput := pageInput st;
     isProcessing := isProcessing st; error := error st;
     outputPdfUrl := url; outputPdfBytes := bytes;
     librariesReady := librariesReady st |}.

Variable env : Collaborators.

(** The [try] block of [handleFileSelect]. *)
Definition read_page_count (selectedFile : File) : outcome Z :=
  arrayBuffer_ <~ arrayBuffer env selectedFile ;;
  pdfDoc <~ load env arrayBuffer_ ;;
  Done (getPageCount env pdfDoc).

Definition handleFileSelect (selectedFile : File) (st : State) : State :=
  if isProcessing st then st
  else if negb (librariesReady st) then setError (Some not_ready) st
  else
    let st := setError None (setIsProcessing true (setFile (Some selectedFile) (resetState st))) in
    let st :=
      match read_page_count selectedFile with
      | Done n => setTotalPages n st
      | Raised e => setFile None (setError (Some (userFriendlyError e)) st)
      end in
    setIsProcessing false st.

(** The [try] block of [handleExtract]. *)
Definition extract_pages (f : File) (st : State) : outcome (Bytes * string) :=
  pageIndices <~ thrown_by (parsePageString (pageInput st) (totalPages st)) ;;
  existingPdfBytes <~ arrayBuffer env f ;;
  pdfDoc <~ load env existingPdfBytes ;;
  copiedPages <~ copyPages env pdfDoc pageIndices ;;
  pdfBytes <~ save env copiedPages ;;
  url <~ createObjectURL env pdfBytes ;;
  Done (pdfBytes, url).

Definition handleExtract (st : State) : State :=
  match file st with
  | None => st
  | Some f =>
      if isProcessing st then st
      else
        let st := setOutput None None (setError None (setIsProcessing true st)) in
        let st :=
          match extract_pages f st with
          | Done (pdfBytes, url) => setOutput (Some url) (Some pdfBytes) st
          | Raised e => setOutput None None (setError (Some (message_or e unexpected)) st)
          end in
        setIsProcessing false st
  end.

End Handlers.

Arguments arrayBuffer {File Bytes Doc Page}.
Arguments load {File Bytes Doc Page}.
Arguments getPageCount {File Bytes Doc Page}.
Arguments copyPages {File Bytes Doc Page}.
Arguments save {File Bytes Doc Page}.
Arguments createObjectURL {File Bytes Doc Page}.
Arguments file {File Bytes}.
Arguments totalPages {File Bytes}.
Arguments pageInput {File Bytes}.
Arguments isProcessing {File Bytes}.
Arguments error {File Bytes}.
Arguments outputPdfUrl {File Bytes}.
Arguments outputPdfBytes {File Bytes}.
Arguments librariesReady {File Bytes}.
Arguments handleFileSelect {File Bytes Doc Page}.
Arguments handleExtract {File Bytes Doc Page}.
Arguments extract_pages {File Bytes Doc Page}.
Arguments read_page_count {File Bytes Doc Page}.

End App.

(** ** Vocabulary of the statements *)

Module Shape.
Import Str.

(** [p'] is [p] with white space put before and after it. *)
Definition padded (p p' : string) : Prop :=
  exists w1 w2, all_ws w1 = true /\ all_ws w2 = true /\ p' = w1 ++ p ++ w2.

(** The tokens of an input, each cut at its dashes. *)
Definition pieces (input : string) : list (list string) :=
  map (split "-") (split "," input).

(** The input that has the given pieces. *)
Definition unpieces (pss : list (list string)) : string :=
  join "," (map (join "-") pss).

End Shape.

(** ** What the tokens of an input denote *)

Module Denote.
Import Str Num Parser.

(** A rational in lowest terms. *)
Definition canonical (q : Q) : Prop := Qred q = q.

(** [pages.add] for each value in turn. *)
Definition add_all (values pages : list Q) : list Q :=
  fold_left (fun acc x => add x acc) values pages.

(** The values the range loop adds, in the order it adds them. *)
Fixpoint range_values (fuel : nat) (i end_ : Q) : list Q :=
  match fuel with
  | O => []
  | S fuel' =>
      if Qle_bool i end_
      then Qred (i - 1) :: range_values fuel' (Qred (i + 1)) end_
      else []
  end.

(** The values a token adds, from the numbers its dash-separated pieces
    convert to; [None] when the token is refused. *)
Definition numbers_values (numbers : list number) (max : Z) : option (list Q) :=
  let start := element 0 numbers in
  if (2 <=? List.length numbers)%nat then
    let end_ := element 1 numbers in
    if isNaN start || isNaN end_ || gt start end_ || lt start (of_Z 1) || gt end_ (of_Z max)
    then None
    else match start, end_ with
         | Finite s, Finite e => Some (range_values (rounds s e) s e)
         | _, _ => Some []
         end
  else
    if isNaN start || lt start (of_Z 1) || gt start (of_Z max)
    then None
    else match start with
         | Finite p => Some [Qred (p - 1)]
         | _ => Some []
         end.

Definition part_values (part : string) (max : Z) : option (list Q) :=
  numbers_values (map Number (split "-" part)) max.

(** The message of the error a refused token raises. *)
Definition part_message (part : string) (max : Z) : string :=
  if includes_char "-" part then invalid_range part max else invalid_page part max.

(** All the values the tokens add, or the message of the first token
    that is refused. *)
Fixpoint denoted (parts : list string) (max : Z) : result (list Q) :=
  match parts with
  | [] => Return []
  | part :: rest =>
      match part_values part max with
      | None => Throw (part_message part max)
      | Some values =>
          values' <- denoted rest max ;;
          Return (values ++ values')%list
      end
  end.

(** No two members of the set are equal numbers. *)
Definition distinct (pages : list Q) : Prop :=
  ForallOrdPairs (fun x y => ~ x == y) pages.

(** The zero-based indices of the pages [a] to [b]. *)
Definition zero_based (a b : Z) : list Q :=
  map (fun k => inject_Z (a - 1 + Z.of_nat k)) (seq 0 (Z.to_nat (b - a + 1))).

End Denote.

(** ** When a token is refused *)

Module Refusal.
Import Str Num Parser.





End Refusal.

(** * The handlers against their description *)

Module AppSpec.
Import Str Parser App.

(** A collaborator set whose [PDFDocument.load] always throws [e]. *)
Definition failing_load (e : Thrown) : Collaborators unit unit unit unit :=
  {| arrayBuffer := fun _ => Done tt;
     load := fun _ => Raised e;
     getPageCount := fun _ => 0;
     copyPages := fun _ _ => Done [];
     save := fun _ => Done tt;
     createObjectURL := fun _ => Done "blob:" |}.

(** The state once a ten-page file is loaded and "1" is typed. *)
Definition ready_state : State unit unit :=
  {| file := Some tt; totalPages := 10; pageInput := "1";
     isProcessing := false; error := None;
     outputPdfUrl := None; outputPdfBytes := None;
     librariesReady := true |}.


Definition parse_error : Thrown :=
  {| constructor_name := "Error";
     message := Some "Failed to parse PDF document" |}.






End AppSpec.

(** ** Selections written with integers *)

Module Tokens.
Import Str.

(** A page, or an inclusive range of pages. *)
Inductive token : Type :=
  | Page (p : Z)
  | Range (a b : Z).

(** The token as it is typed. *)
Definition text (t : token) : string :=
  match t with
  | Page p => dec p
  | Range a b => dec a ++ "-" ++ dec b
  end.

(** The tokens typed one after the other, with commas between. *)
Definition selection (ts : list token) : string := join "," (map text ts).

(** The token stays within the pages 1..[max]. *)
Definition valid (max : Z) (t : token) : Prop :=
  match t with
  | Page p => 1 <= p <= max
  | Range a b => 1 <= a <= b /\ b <= max
  end.

(** The token asks for page [k]. *)
Definition covers (t : token) (k : Z) : Prop :=
  match t with
  | Page p => k = p
  | Range a b => a <= k <= b
  end.

End Tokens.

(** ** The rest of the component: uploader, engines, what is shown *)

Module Ui.
Import Str Parser App.

(** [s && ...] on a string state that may be [null]: [null] and the empty
    string are falsy. *)
Definition truthy (s : option string) : bool :=
  match s with
  | Some m => negb (String.eqb m EmptyString)
  | None => false
  end.

(** What [renderContent] returns. *)
Inductive content : Type :=
  | Nothing          (* [null] *)
  | Initializing     (* the "Initializing PDF Engines..." panel *)
  | Uploader         (* [<FileUploader/>] *)
  | Controls.        (* the file card, the pages field and the Extract button *)

(** The two scripts the effect can append, and what they fire. *)
Inductive script : Type := PdfLibScript | PdfJsScript.

Inductive event : Type :=
  | Onload (s : script)
  | Onerror (s : script).

(** Among the events, the [onload] of script [s]; an [onerror]. *)
Definition loaded (s : script) (evs : list event) : bool :=
  existsb (fun ev => match ev, s with
                     | Onload PdfLibScript, PdfLibScript => true
                     | Onload PdfJsScript, PdfJsScript => true
                     | _, _ => false
                     end) evs.

Definition failed (evs : list event) : bool :=
  existsb (fun ev => match ev with Onerror _ => true | Onload _ => false end) evs.

(** The two [let] flags the effect's handlers close over. *)
Record flags : Type := {
  pdfLibLoaded : bool;
  pdfJsLoaded : bool
}.

Definition pdfLib_failed : string :=
  "Failed to load PDF creation library. Please refresh.".

Definition pdfJs_failed : string :=
  "Failed to load PDF preview library. Please refresh.".

Section Component.

Variables File Bytes Doc Page : Type.

(** [file.type] *)
Variable fileType : File -> string.

Variable env : Collaborators File Bytes Doc Page.

Definition setPageInput (s : string) (st : State File Bytes) : State File Bytes :=
  {| file := file st; totalPages := totalPages st; pageInput := s;
     isProcessing := isProcessing st; error := error st;
     outputPdfUrl := outputPdfUrl st; outputPdfBytes := outputPdfBytes st;
     librariesReady := librariesReady st |}.

Definition setLibrariesReady (b : bool) (st : State File Bytes) : State File Bytes :=
  {| file := file st; totalPages := totalPages st; pageInput := pageInput st;
     isProcessing := isProcessing st; error := error st;
     outputPdfUrl := outputPdfUrl st; outputPdfBytes := outputPdfBytes st;
     librariesReady := b |}.

(** *** [FileUploader] *)

(** [handleDrop], on [e.dataTransfer.files]. *)
Definition handleDrop (files : list File) (st : State File Bytes) : State File Bytes :=
  if isProcessing st then st
  else
    match files with
    | first :: _ =>
        if String.eqb (fileType first) "application/pdf"
        then handleFileSelect env first st
        else st
    | [] => st
    end.

(** [handleFileChange], on [e.target.files]. *)
Definition handleFileChange (files : list File) (st : State File Bytes) : State File Bytes :=
  match files with
  | first :: _ => handleFileSelect env first st
  | [] => st
  end.

(** One use of the uploader: files dropped on it, or files chosen with
    Browse. *)
Inductive pick : Type :=
  | Dropped (files : list File)
  | Browsed (files : list File).

Definition pick_files (p : pick) (st : State File Bytes) : State File Bytes :=
  match p with
  | Dropped files => handleDrop files st
  | Browsed files => handleFileChange files st
  end.

(** The uploader used several times in a row. *)
Definition picks (ps : list pick) (st : State File Bytes) : State File Bytes :=
  fold_left (fun s p => pick_files p s) ps st.

(** The file a pick hands over: the first one, which a drop only takes
    when it is a PDF. *)
Definition handed (p : pick) : option File :=
  match p with
  | Dropped (first :: _) =>
      if String.eqb (fileType first) "application/pdf" then Some first else None
  | Browsed (first :: _) => Some first
  | _ => None
  end.

(** The file handed over by the last pick that hands one over. *)
Fixpoint last_handed (ps : list pick) : option File :=
  match ps with
  | [] => None
  | p :: rest =>
      match last_handed rest with
      | Some f => Some f
      | None => handed p
      end
  end.

(** *** The effect that loads the two engines *)

Definition checkAndSetReady (fl : flags) (st : State File Bytes) : State File Bytes :=
  if pdfLibLoaded fl && pdfJsLoaded fl then setLibrariesReady true st else st.

(** The effect body, given whether [PDFLib] and [pdfjsLib] are defined
    already: the flags, the scripts appended, the state. *)
Definition mount (libDefined jsDefined : bool) (st : State File Bytes)
  : flags * list script * State File Bytes :=
  let fl := {| pdfLibLoaded := libDefined; pdfJsLoaded := jsDefined |} in
  if libDefined && jsDefined then (fl, [], checkAndSetReady fl st)
  else
    (fl,
     ((if libDefined then [] else [PdfLibScript]) ++
      (if jsDefined then [] else [PdfJsScript]))%list,
     st).

(** One [onload] or [onerror] handler running. *)
Definition fire (ev : event) (now : flags * State File Bytes) : flags * State File Bytes :=
  let (fl, st) := now in
  match ev with
  | Onload PdfLibScript =>
      let fl := {| pdfLibLoaded := true; pdfJsLoaded := pdfJsLoaded fl |} in
      (fl, checkAndSetReady fl st)
  | Onload PdfJsScript =>
      let fl := {| pdfLibLoaded := pdfLibLoaded fl; pdfJsLoaded := true |} in
      (fl, checkAndSetReady fl st)
  | Onerror PdfLibScript => (fl, setError File Bytes (Some pdfLib_failed) st)
  | Onerror PdfJsScript => (fl, setError File Bytes (Some pdfJs_failed) st)
  end.

(** The handlers running one after the other. *)
Definition fire_all (evs : list event) (now : flags * State File Bytes)
  : flags * State File Bytes :=
  fold_left (fun acc ev => fire ev acc) evs now.

(** The effect, then the events. *)
Definition engines (libDefined jsDefined : bool) (evs : list event) (st : State File Bytes)
  : State File Bytes :=
  let '(fl, _, st) := mount libDefined jsDefined st in
  snd (fire_all evs (fl, st)).

(** *** What is shown *)

(** [renderContent] *)
Definition renderContent (st : State File Bytes) : content :=
  if negb (librariesReady st) then
    if truthy (error st) then Nothing else Initializing
  else
    match file st with
    | None => Uploader
    | Some _ => Controls
    end.

(** [{error && ...}]: the red banner. *)
Definition errorShown (st : State File Bytes) : bool := truthy (error st).

(** [{outputPdfUrl && ...}]: the "Extraction Complete!" block. *)
Definition resultShown (st : State File Bytes) : bool := truthy (outputPdfUrl st).

(** [{outputPdfBytes && librariesReady && <PdfPreview/>}] inside it. *)
Definition previewShown (st : State File Bytes) : bool :=
  resultShown st &&
  match outputPdfBytes st with Some _ => true | None => false end &&
  librariesReady st.

End Component.

Arguments setPageInput {File Bytes}.
Arguments setLibrariesReady {File Bytes}.
Arguments handleDrop {File Bytes Doc Page}.
Arguments handleFileChange {File Bytes Doc Page}.
Arguments Dropped {File}.
Arguments Browsed {File}.
Arguments pick_files {File Bytes Doc Page}.
Arguments picks {File Bytes Doc Page}.
Arguments handed {File}.
Arguments last_handed {File}.
Arguments checkAndSetReady {File Bytes}.
Arguments mount {File Bytes}.
Arguments fire {File Bytes}.
Arguments fire_all {File Bytes}.
Arguments engines {File Bytes}.
Arguments renderContent {File Bytes}.
Arguments errorShown {File Bytes}.
Arguments resultShown {File Bytes}.
Arguments previewShown {File Bytes}.

End Ui.

(** ** The preview of the extracted document *)

Module Preview.
Import App.

Definition no_preview : string := "Could not generate a preview for this PDF.".

Section RenderPdf.

Variables Bytes Pdf PageProxy Viewport Context : Type.

(** What [renderPdf] asks of pdf.js and of the canvas. *)
Record PdfJs : Type := {
  getDocument : Bytes -> outcome Pdf;           (* [await getDocument({data}).promise] *)
  numPages : Pdf -> nat;
  getPage : Pdf -> nat -> outcome PageProxy;    (* [await pdf.getPage(i)] *)
  getViewport : PageProxy -> Viewport;          (* at scale 0.5 *)
  getContext : nat -> option Context;           (* [canvas.getContext('2d')] of the canvas made for page [i] *)
  render : PageProxy -> Context -> Viewport -> outcome unit
                                                (* [await page.render(...).promise] *)
}.

(** A canvas appended to the container: the page it was made for and the
    viewport that sized it. *)
Record Canvas : Type := {
  of_page : nat;
  sized_by : Viewport
}.

(** The state of [PdfPreview] and the children of its container. *)
Record View : Type := {
  isLoading : bool;
  error : option string;
  canvases : list Canvas
}.

Variable js : PdfJs.

(** The canvas made for page [i] gets a 2d context. *)
Definition has_context (i : nat) : bool :=
  match getContext js i with Some _ => true | None => false end.

(** The canvas has the size of the viewport of the page it was made for. *)
Definition well_sized (pdf : Pdf) (c : Canvas) : Prop :=
  exists page, getPage js pdf (of_page c) = Done page /\ sized_by c = getViewport js page.

(** The [for (let i = 1; i <= numPages; i++)] loop over the pages still to
    do: the canvases appended, and what was thrown if the loop was left. *)
Fixpoint render_pages (pdf : Pdf) (pages : list nat) (done : list Canvas)
  : list Canvas * option Thrown :=
  match pages with
  | [] => (done, None)
  | i :: rest =>
      match getPage js pdf i with
      | Raised e => (done, Some e)
      | Done page =>
          let viewport := getViewport js page in
          match getContext js i with
          | None => render_pages pdf rest done          (* [continue] *)
          | Some context =>
              let done := (done ++ [{| of_page := i; sized_by := viewport |}])%list in
              match render js page context viewport with
              | Raised e => (done, Some e)
              | Done _ => render_pages pdf rest done
              end
          end
      end
  end.

(** [renderPdf], from the effect of [PdfPreview], the container staying
    mounted: the state and the container once it has run. *)
Definition renderPdf (pdfBytes : Bytes) : View :=
  match getDocument js pdfBytes with
  | Raised _ => {| isLoading := false; error := Some no_preview; canvases := [] |}
  | Done pdf =>
      match render_pages pdf (seq 1 (numPages js pdf)) [] with
      | (done, Some _) => {| isLoading := false; error := Some no_preview; canvases := done |}
      | (done, None) => {| isLoading := false; error := None; canvases := done |}
      end
  end.

End RenderPdf.

Arguments getDocument {Bytes Pdf PageProxy Viewport Context}.
Arguments numPages {Bytes Pdf PageProxy Viewport Context}.
Arguments getPage {Bytes Pdf PageProxy Viewport Context}.
Arguments getViewport {Bytes Pdf PageProxy Viewport Context}.
Arguments getContext {Bytes Pdf PageProxy Viewport Context}.
Arguments render {Bytes Pdf PageProxy Viewport Context}.
Arguments of_page {Viewport}.
Arguments sized_by {Viewport}.
Arguments isLoading {Viewport}.
Arguments error {Viewport}.
Arguments canvases {Viewport}.
Arguments has_context {Bytes Pdf PageProxy Viewport Context}.
Arguments well_sized {Bytes Pdf PageProxy Viewport Context}.
Arguments render_pages {Bytes Pdf PageProxy Viewport Context}.
Arguments renderPdf {Bytes Pdf PageProxy Viewport Context}.

End Preview.

(** ** A small instance, to run the handlers on *)

Module Sample.
Import Parser App Ui.

(** A file is given by its number of pages; the bytes of a document are
    the indices of the pages it holds; a page is its index. *)
Definition pages_of (n : nat) : list Q :=
  map (fun k => inject_Z (Z.of_nat k)) (seq 0 n).

Definition toy : Collaborators nat (list Q) nat Q :=
  {| arrayBuffer := fun n => Done (pages_of n);
     load := fun bytes => Done (List.length bytes);
     getPageCount := fun doc => Z.of_nat doc;
     copyPages := fun _ indices => Done indices;
     save := fun pages => Done pages;
     createObjectURL := fun _ => Done "blob:toy" |}.

(** The state of [App] when it mounts, and once the engines are there. *)
Definition mounted : State nat (list Q) :=
  {| file := None; totalPages := 0; pageInput := EmptyString;
     isProcessing := false; error := None;
     outputPdfUrl := None; outputPdfBytes := None;
     librariesReady := false |}.

Definition idle : State nat (list Q) := setLibrariesReady true mounted.

(** A file of type [application/pdf] has an even number of pages here. *)
Definition toy_type (n : nat) : string :=
  if Nat.even n then "application/pdf" else "text/plain".

(** pdf.js on the same documents: every page loads, has a context and
    renders. *)
Definition toy_js : Preview.PdfJs (list Q) nat nat nat unit :=
  {| Preview.getDocument := fun bytes => Done (List.length bytes);
     Preview.numPages := fun pdf => pdf;
     Preview.getPage := fun _ i => Done i;
     Preview.getViewport := fun page => page;
     Preview.getContext := fun _ => Some tt;
     Preview.render := fun _ _ _ => Done tt |}.

End Sample.


(** * Facts *)

(** ** White space, trimming, splitting *)

Module StrFacts.
Import Str.

Lemma all_ws_app (u v : string) :
  all_ws (u ++ v) = all_ws u && all_ws v.
Proof.
  induction u as [|c u IH]; simpl; [reflexivity|].
  rewrite IH. apply andb_assoc.
Qed.

Lemma trimStart_ws (w : string) : all_ws w = true -> trimStart w = EmptyString.
Proof.
  induction w as [|c w IH]; simpl; [reflexivity|].
  intros H. apply andb_prop in H as [Hc Hw]. rewrite Hc. auto.
Qed.

Lemma trimEnd_ws (w : string) : all_ws w = true -> trimEnd w = EmptyString.
Proof.
  induction w as [|c w IH]; simpl; [reflexivity|].
  intros H. apply andb_prop in H as [Hc Hw]. rewrite (IH Hw), Hc. reflexivity.
Qed.

Lemma trimStart_ws_app (w s : string) :
  all_ws w = true -> trimStart (w ++ s) = trimStart s.
Proof.
  induction w as [|c w IH]; simpl; [reflexivity|].
  intros H. apply andb_prop in H as [Hc Hw]. rewrite Hc. auto.
Qed.

Lemma trimEnd_app_ws (s w : string) :
  all_ws w = true -> trimEnd (s ++ w) = trimEnd s.
Proof.
  intros Hw. induction s as [|c s IH]; simpl.
  - now apply trimEnd_ws.
  - rewrite IH. reflexivity.
Qed.

Lemma trimStart_idem (s : string) : trimStart (trimStart s) = trimStart s.
Proof.
  induction s as [|c s IH]; simpl; [reflexivity|].
  destruct (is_ws c) eqn:Hc; [exact IH|]. simpl. now rewrite Hc.
Qed.

Lemma trimEnd_idem (s : string) : trimEnd (trimEnd s) = trimEnd s.
Proof.
  induction s as [|c s IH]; simpl; [reflexivity|].
  destruct (trimEnd s) as [|d t] eqn:Ht.
  - destruct (is_ws c) eqn:Hc; simpl; [reflexivity|]. now rewrite Hc.
  - change (trimEnd (String c (String d t))) with
      (match trimEnd (String d t) with
       | EmptyString => if is_ws c then EmptyString else String c EmptyString
       | u => String c u
       end).
    rewrite IH. reflexivity.
Qed.

Lemma trim_comm (s : string) : trimStart (trimEnd s) = trimEnd (trimStart s).
Proof.
  induction s as [|c s IH]; [reflexivity|].
  cbn [trimStart trimEnd].
  destruct (is_ws c) eqn:Hc.
  - rewrite <- IH. destruct (trimEnd s) as [|d t]; [reflexivity|].
    cbn [trimStart]. now rewrite Hc.
  - cbn [trimEnd]. destruct (trimEnd s) as [|d t]; rewrite ?Hc; cbn [trimStart]; now rewrite Hc.
Qed.

Lemma trim_trimStart (s : string) : trim (trimStart s) = trim s.
Proof. unfold trim. now rewrite trimStart_idem. Qed.

Lemma trim_trimEnd (s : string) : trim (trimEnd s) = trim s.
Proof. unfold trim. now rewrite <- !trim_comm, trimEnd_idem. Qed.

Lemma trim_idem (s : string) : trim (trim s) = trim s.
Proof. unfold trim at 2. now rewrite trim_trimEnd, trim_trimStart. Qed.

Lemma trim_app_ws (s w : string) : all_ws w = true -> trim (s ++ w) = trim s.
Proof.
  intros Hw. unfold trim. now rewrite <- !trim_comm, trimEnd_app_ws.
Qed.

Lemma trim_ws_app (w s : string) : all_ws w = true -> trim (w ++ s) = trim s.
Proof. intros Hw. unfold trim. now rewrite trimStart_ws_app. Qed.

(** White space put on either side of a string is trimmed away. *)
Lemma trim_pad (w1 s w2 : string) :
  all_ws w1 = true -> all_ws w2 = true -> trim (w1 ++ s ++ w2) = trim s.
Proof. intros H1 H2. now rewrite trim_ws_app, trim_app_ws. Qed.

(** Every string is its trimmed form with white space on both sides. *)
Lemma trimStart_prefix (s : string) :
  exists w, all_ws w = true /\ s = w ++ trimStart s.
Proof.
  induction s as [|c s (w & Hw & E)]; simpl.
  - now exists EmptyString.
  - destruct (is_ws c) eqn:Hc.
    + exists (String c w). simpl. rewrite Hc, Hw. split; [reflexivity|]. now rewrite <- E.
    + now exists EmptyString.
Qed.

Lemma trimEnd_suffix (s : string) :
  exists w, all_ws w = true /\ s = trimEnd s ++ w.
Proof.
  induction s as [|c s (w & Hw & E)]; simpl.
  - now exists EmptyString.
  - destruct (trimEnd s) as [|d t].
    + simpl in E. subst s. destruct (is_ws c) eqn:Hc.
      * exists (String c w). simpl. now rewrite Hc, Hw.
      * now exists w.
    + exists w. split; [assumption|]. simpl. f_equal. exact E.
Qed.

Lemma includes_char_app (c : ascii) (u v : string) :
  includes_char c (u ++ v) = includes_char c u || includes_char c v.
Proof.
  induction u as [|d u IH]; simpl; [reflexivity|].
  rewrite IH. apply orb_assoc.
Qed.

Lemma includes_char_ws (c : ascii) (w : string) :
  is_ws c = false -> all_ws w = true -> includes_char c w = false.
Proof.
  intros Hc. induction w as [|d w IH]; simpl; [reflexivity|].
  intros H. apply andb_prop in H as [Hd Hw]. rewrite (IH Hw), orb_false_r.
  apply Ascii.eqb_neq. intros ->. congruence.
Qed.

(** *** [split] and [join] *)

Lemma split_at_free (sep : ascii) (s : string) :
  includes_char sep s = false -> split_at sep s = (s, []).
Proof.
  induction s as [|c s IH]; simpl; [reflexivity|].
  intros H. apply orb_false_elim in H as [Hc Hs].
  rewrite (IH Hs), Hc. reflexivity.
Qed.

Lemma split_at_app_sep (sep : ascii) (p r : string) :
  includes_char sep p = false ->
  split_at sep (p ++ String sep r) = (p, split sep r).
Proof.
  unfold split. induction p as [|c p IH]; simpl.
  - intros _. rewrite Ascii.eqb_refl. now destruct (split_at sep r).
  - intros H. apply orb_false_elim in H as [Hc Hp].
    rewrite (IH Hp), Hc. reflexivity.
Qed.

(** Splitting what was joined gives the pieces back, as long as no piece
    holds the separator. *)
Lemma split_join (sep : ascii) (p : string) (ps : list string) :
  Forall (fun q => includes_char sep q = false) (p :: ps) ->
  split sep (join sep (p :: ps)) = p :: ps.
Proof.
  revert p. induction ps as [|q ps IH]; intros p H.
  - inversion_clear H. unfold split. simpl. now rewrite split_at_free.
  - inversion_clear H as [|? ? Hp Hps].
    change (join sep (p :: q :: ps)) with (p ++ String sep (join sep (q :: ps))).
    unfold split. rewrite split_at_app_sep by assumption.
    now rewrite IH.
Qed.

Lemma split_nonempty (sep : ascii) (s : string) : split sep s <> [].
Proof. unfold split. now destruct (split_at sep s). Qed.

Lemma join_split (sep : ascii) (s : string) : join sep (split sep s) = s.
Proof.
  unfold split. induction s as [|c s IH]; simpl; [reflexivity|].
  destruct (split_at sep s) as [p ps].
  destruct (Ascii.eqb_spec c sep) as [->|Hc].
  - change (join sep (EmptyString :: p :: ps)) with (String sep (join sep (p :: ps))).
    now rewrite IH.
  - destruct ps as [|q ps]; simpl in *; now rewrite IH.
Qed.

Lemma split_free (sep : ascii) (s : string) :
  Forall (fun q => includes_char sep q = false) (split sep s).
Proof.
  unfold split. induction s as [|c s IH]; simpl.
  - now repeat constructor.
  - destruct (split_at sep s) as [p ps]. inversion_clear IH as [|? ? Hp Hps].
    destruct (Ascii.eqb c sep) eqn:Hc.
    + constructor; [reflexivity|]. now constructor.
    + constructor; [|assumption]. simpl. now rewrite Hc, Hp.
Qed.

(** A string includes the separator exactly when it splits in two or more. *)
Lemma includes_char_split (sep : ascii) (s : string) :
  includes_char sep s = (2 <=? List.length (split sep s))%nat.
Proof.
  unfold split. induction s as [|c s IH]; simpl; [reflexivity|].
  destruct (split_at sep s) as [p ps].
  destruct (Ascii.eqb c sep); [reflexivity|]. simpl in *. exact IH.
Qed.

Lemma join_free (sep c : ascii) (ps : list string) :
  Ascii.eqb sep c = false ->
  Forall (fun q => includes_char c q = false) ps ->
  includes_char c (join sep ps) = false.
Proof.
  intros Hsep. induction ps as [|p ps IH]; intros H; [reflexivity|].
  inversion_clear H as [|? ? Hp Hps].
  destruct ps as [|q ps]; [exact Hp|].
  change (join sep (p :: q :: ps)) with (p ++ String sep (join sep (q :: ps))).
  rewrite includes_char_app, Hp. simpl. rewrite Hsep. now apply IH.
Qed.

End StrFacts.

(** ** Padding with white space *)

Module PadFacts.
Import Str Shape StrFacts.

Lemma append_assoc (a b c : string) : (a ++ b) ++ c = a ++ b ++ c.
Proof. induction a as [|x a IH]; simpl; [reflexivity|]. now rewrite IH. Qed.

Lemma append_nil_r (a : string) : a ++ EmptyString = a.
Proof. induction a as [|x a IH]; simpl; [reflexivity|]. now rewrite IH. Qed.

Lemma padded_refl (p : string) : padded p p.
Proof. exists EmptyString, EmptyString. simpl. now rewrite append_nil_r. Qed.

Lemma padded_trans (p q r : string) : padded p q -> padded q r -> padded p r.
Proof.
  intros (a & b & Ha & Hb & ->) (c & d & Hc & Hd & ->).
  exists (c ++ a), (b ++ d). rewrite !all_ws_app, Ha, Hb, Hc, Hd.
  repeat split. now rewrite !append_assoc.
Qed.

Lemma padded_trim (s : string) : padded (trim s) s.
Proof.
  destruct (trimStart_prefix s) as (w1 & H1 & E1).
  destruct (trimEnd_suffix (trimStart s)) as (w2 & H2 & E2).
  exists w1, w2. repeat split; try assumption.
  unfold trim. now rewrite <- E2.
Qed.

Lemma trim_padded (p q : string) : padded p q -> trim q = trim p.
Proof. intros (a & b & Ha & Hb & ->). now apply trim_pad. Qed.

Lemma padded_includes (c : ascii) (p q : string) :
  is_ws c = false -> padded p q -> includes_char c q = includes_char c p.
Proof.
  intros Hc (a & b & Ha & Hb & ->).
  rewrite !includes_char_app, (includes_char_ws c a), (includes_char_ws c b) by assumption.
  simpl. apply orb_false_r.
Qed.

Lemma split_at_ws_app (sep : ascii) (w s : string) :
  is_ws sep = false -> all_ws w = true ->
  split_at sep (w ++ s) = (w ++ fst (split_at sep s), snd (split_at sep s)).
Proof.
  intros Hsep. induction w as [|c w IH]; simpl; intros Hw.
  - now destruct (split_at sep s).
  - apply andb_prop in Hw as [Hc Hw]. rewrite (IH Hw).
    destruct (Ascii.eqb_spec c sep) as [->|_]; [congruence|reflexivity].
Qed.

Lemma split_app_ws (sep : ascii) (s w : string) :
  is_ws sep = false -> all_ws w = true ->
  Forall2 (fun p q => exists v, all_ws v = true /\ q = p ++ v)
          (split sep s) (split sep (s ++ w)).
Proof.
  intros Hsep Hw. unfold split. induction s as [|c s IH]; simpl.
  - rewrite split_at_free by now apply includes_char_ws.
    constructor; [|constructor]. now exists w.
  - destruct (split_at sep s) as [p ps], (split_at sep (s ++ w)) as [q qs].
    inversion_clear IH as [|? ? ? ? (v & Hv & ->) Hrest].
    destruct (Ascii.eqb c sep).
    + constructor; [now exists EmptyString|]. constructor; [now exists v|assumption].
    + constructor; [now exists v|assumption].
Qed.

(** Cutting a padded string gives the pieces of the original, padded. *)
Lemma split_padded (sep : ascii) (s s' : string) :
  is_ws sep = false -> padded s s' ->
  Forall2 padded (split sep s) (split sep s').
Proof.
  intros Hsep (a & b & Ha & Hb & ->).
  pose proof (split_app_ws sep s b Hsep Hb) as H.
  unfold split in *. rewrite split_at_ws_app by assumption.
  destruct (split_at sep s) as [p ps], (split_at sep (s ++ b)) as [q qs]. simpl.
  inversion_clear H as [|? ? ? ? (v & Hv & ->) Hrest].
  constructor.
  - now exists a, v.
  - eapply Forall2_impl; [|exact Hrest].
    intros x y (u & Hu & ->). exists EmptyString, u. now repeat split.
Qed.

Lemma Forall2_padded_refl (ps : list string) : Forall2 padded ps ps.
Proof. induction ps; constructor; [apply padded_refl|assumption]. Qed.

End PadFacts.

(** ** [Number] *)

Module NumFacts.
Import Str Num Shape StrFacts PadFacts.

Lemma Number_padded (p q : string) : padded p q -> Number q = Number p.
Proof. intros H. unfold Number. now rewrite (trim_padded p q H). Qed.

Lemma Number_trim (s : string) : Number (trim s) = Number s.
Proof. unfold Number. now rewrite trim_idem. Qed.

Lemma Numbers_padded (ps qs : list string) :
  Forall2 padded ps qs -> map Number qs = map Number ps.
Proof.
  induction 1 as [|p q ps qs H _ IH]; simpl; [reflexivity|].
  now rewrite IH, (Number_padded p q H).
Qed.

(** *** Rationals in lowest terms *)

Lemma Qred_inject_Z (z : Z) : Qred (inject_Z z) = inject_Z z.
Proof.
  unfold Qred, inject_Z.
  pose proof (Z.ggcd_gcd z 1) as Hg.
  pose proof (Z.ggcd_correct_divisors z 1) as Hd.
  destruct (Z.ggcd z 1) as [g [a b]]. simpl in Hg.
  rewrite Z.gcd_1_r in Hg. subst g. destruct Hd as [Ha Hb].
  rewrite Z.mul_1_l in Ha, Hb. now subst a b.
Qed.

Lemma Qred_Z (q : Q) (z : Z) : q == inject_Z z -> Qred q = inject_Z z.
Proof. intros H. rewrite <- Qred_inject_Z. now apply Qred_complete. Qed.

Lemma Qred_succ (z : Z) : Qred (inject_Z z + 1) = inject_Z (z + 1).
Proof. apply Qred_Z. now rewrite inject_Z_plus. Qed.

Lemma Qred_pred (z : Z) : Qred (inject_Z z - 1) = inject_Z (z - 1).
Proof.
  apply Qred_Z. unfold Z.sub, Qminus. now rewrite inject_Z_plus, inject_Z_opp.
Qed.

Lemma Qle_bool_Z (a b : Z) : Qle_bool (inject_Z a) (inject_Z b) = (a <=? b).
Proof.
  apply eq_true_iff_eq. rewrite Qle_bool_iff, <- Zle_Qle. symmetry. apply Z.leb_le.
Qed.

Lemma Qeq_bool_Z (a b : Z) : Qeq_bool (inject_Z a) (inject_Z b) = (a =? b).
Proof.
  apply eq_true_iff_eq. rewrite Qeq_bool_iff, inject_Z_injective. symmetry. apply Z.eqb_eq.
Qed.

Lemma lt_Z (a b : Z) : lt (of_Z a) (of_Z b) = (a <? b).
Proof. unfold lt, of_Z. rewrite Qle_bool_Z, Z.ltb_antisym. reflexivity. Qed.

Lemma gt_Z (a b : Z) : gt (of_Z a) (of_Z b) = (b <? a).
Proof. apply lt_Z. Qed.

(** *** Decimal numerals *)

Lemma digit_plain (c : ascii) :
  is_digit c = true ->
  is_ws c = false /\
  Ascii.eqb c "+" = false /\ Ascii.eqb c "-" = false /\ Ascii.eqb c "I" = false /\
  Ascii.eqb c "x" = false /\ Ascii.eqb c "X" = false /\
  Ascii.eqb c "o" = false /\ Ascii.eqb c "O" = false /\
  Ascii.eqb c "b" = false /\ Ascii.eqb c "B" = false.
Proof.
  destruct c as [[] [] [] [] [] [] [] []]; vm_compute; intros H;
    first [discriminate H | repeat split].
Qed.

Lemma digit_of_char (d : Z) : 0 <= d < 10 -> digit_of 10 (digit_char d) = Some d.
Proof.
  intros H.
  assert (d = 0 \/ d = 1 \/ d = 2 \/ d = 3 \/ d = 4 \/
          d = 5 \/ d = 6 \/ d = 7 \/ d = 8 \/ d = 9) as E by lia.
  repeat (destruct E as [->|E]; [reflexivity|]). now subst d.
Qed.

Lemma scan_dec_digits (f : nat) (n : Z) (s : string) (k : nat) :
  0 <= n < 2 ^ Z.of_nat (S f) ->
  exists k', scan_digits 10 0 k (dec_digits (S f) n s) = scan_digits 10 n (S k') s.
Proof.
  revert n s k. induction f as [|f IH]; intros n s k Hn.
  - assert (n < 10) as H10 by (change (2 ^ Z.of_nat 1) with 2 in Hn; lia).
    cbn [dec_digits]. apply Z.ltb_lt in H10 as Hb. rewrite Hb.
    rewrite Z.mod_small by lia. cbn [scan_digits]. rewrite digit_of_char by lia.
    exists k. reflexivity.
  - change (dec_digits (S (S f)) n s) with
      (if n <? 10 then String (digit_char (n mod 10)) s
       else dec_digits (S f) (n / 10) (String (digit_char (n mod 10)) s)).
    destruct (Z.ltb_spec n 10) as [H10|H10].
    + rewrite Z.mod_small by lia. cbn [scan_digits]. rewrite digit_of_char by lia.
      exists k. reflexivity.
    + assert (0 <= n / 10 < 2 ^ Z.of_nat (S f)) as Hq.
      { split; [apply Z.div_pos; lia|].
        apply Z.div_lt_upper_bound; [lia|].
        replace (Z.of_nat (S (S f))) with (Z.succ (Z.of_nat (S f))) in Hn by lia.
        rewrite Z.pow_succ_r in Hn by lia. lia. }
      destruct (IH (n / 10) (String (digit_char (n mod 10)) s) k Hq) as [k' E].
      rewrite E. cbn [scan_digits]. rewrite digit_of_char by (apply Z.mod_pos_bound; lia).
      exists (S k'). f_equal. symmetry. apply Z.div_mod. lia.
Qed.

Lemma scan_dec_nonneg (n : Z) :
  0 <= n -> exists k, scan_digits 10 0 0 (dec_nonneg n) = (n, S k, EmptyString).
Proof.
  intros Hn. unfold dec_nonneg.
  destruct (scan_dec_digits (Z.to_nat (Z.log2 n)) n EmptyString 0) as [k E].
  - split; [assumption|].
    replace (Z.of_nat (S (Z.to_nat (Z.log2 n)))) with (Z.succ (Z.log2 n))
      by (pose proof (Z.log2_nonneg n); lia).
    destruct (Z.eq_dec n 0) as [->|Hz]; [reflexivity|].
    apply Z.log2_spec. lia.
  - exists k. exact E.
Qed.

Lemma scan_all_digits (acc : Z) (n : nat) (s : string) (v : Z) (m : nat) :
  scan_digits 10 acc n s = (v, m, EmptyString) -> all_digits s = true.
Proof.
  revert acc n. induction s as [|c s IH]; intros acc n; simpl; [reflexivity|].
  unfold is_digit. destruct (digit_of 10 c); [|discriminate].
  intros H. now rewrite (IH _ _ H).
Qed.

Lemma trimEnd_digits (s : string) : all_digits s = true -> trimEnd s = s.
Proof.
  induction s as [|c s IH]; simpl; [reflexivity|].
  intros H. apply andb_prop in H as [Hc Hs]. rewrite (IH Hs).
  destruct (digit_plain c Hc) as [Hw _]. rewrite Hw. now destruct s.
Qed.

Lemma trim_digits (s : string) : all_digits s = true -> trim s = s.
Proof.
  intros H. unfold trim. destruct s as [|c s]; [reflexivity|].
  simpl in H. apply andb_prop in H as H'. destruct H' as [Hc Hs].
  destruct (digit_plain c Hc) as [Hw _].
  cbn [trimStart]. rewrite Hw. now apply trimEnd_digits.
Qed.

(** A string made of decimal digits only converts to the integer it
    spells. *)
Lemma Number_digits (s : string) (v : Z) (k : nat) :
  scan_digits 10 0 0 s = (v, S k, EmptyString) -> Number s = of_Z v.
Proof.
  intros Hscan. pose proof (scan_all_digits _ _ _ _ _ Hscan) as Hall.
  unfold Number. rewrite trim_digits by assumption.
  destruct s as [|c r]; [discriminate Hscan|].
  simpl in Hall. apply andb_prop in Hall as [Hc Hr].
  destruct (digit_plain c Hc) as (_ & Hplus & Hminus & HI & _).
  unfold numeric_literal.
  assert (radix_literal (String c r) = None) as ->.
  { destruct r as [|d r]; [reflexivity|]. simpl in Hr.
    apply andb_prop in Hr as [Hd _].
    destruct (digit_plain d Hd) as (_ & _ & _ & _ & Hx & HX & Ho & HO & Hb & HB).
    unfold radix_literal. rewrite Hx, HX, Ho, HO, Hb, HB. simpl.
    now rewrite andb_false_r. }
  rewrite Hplus, Hminus.
  assert (String.eqb (String c r) "Infinity" = false) as ->.
  { simpl. now rewrite HI. }
  unfold unsigned_decimal. rewrite Hscan. simpl.
  unfold of_Z, decimal_value. f_equal. apply Qred_Z.
  change (Qpower 10 (0 - 0)) with 1%Q. apply Qmult_1_r.
Qed.

Lemma Number_dec (n : Z) : 0 <= n -> Number (dec n) = of_Z n.
Proof.
  intros Hn. unfold dec. destruct (Z.ltb_spec n 0); [lia|].
  destruct (scan_dec_nonneg n Hn) as [k E]. exact (Number_digits _ _ _ E).
Qed.

Lemma digits_free (c : ascii) (s : string) :
  is_digit c = false -> all_digits s = true -> includes_char c s = false.
Proof.
  intros Hc. induction s as [|d s IH]; simpl; [reflexivity|].
  intros H. apply andb_prop in H as [Hd Hs]. rewrite (IH Hs), orb_false_r.
  apply Ascii.eqb_neq. intros ->. congruence.
Qed.

Lemma dec_digits_only (n : Z) : 0 <= n -> all_digits (dec n) = true.
Proof.
  intros Hn. unfold dec. destruct (Z.ltb_spec n 0); [lia|].
  destruct (scan_dec_nonneg n Hn) as [k E].
  exact (scan_all_digits _ _ _ _ _ E).
Qed.

End NumFacts.

(** ** The set of pages and its sorted listing *)

Module SetFacts.
Import Str Num Parser Denote NumFacts.

Lemma canonical_Qred (q : Q) : canonical (Qred q).
Proof. apply Qred_complete, Qred_correct. Qed.

Lemma canonical_eq (x y : Q) : canonical x -> canonical y -> x == y -> x = y.
Proof. unfold canonical. intros Hx Hy E. rewrite <- Hx, <- Hy. now apply Qred_complete. Qed.

Lemma has_iff (x : Q) (pages : list Q) :
  has x pages = true <-> exists y, In y pages /\ x == y.
Proof.
  unfold has. rewrite existsb_exists.
  split; intros (y & Hin & E); exists y; (split; [assumption|]); now apply Qeq_bool_iff.
Qed.

Lemma has_In (x : Q) (pages : list Q) :
  canonical x -> Forall canonical pages -> has x pages = true <-> In x pages.
Proof.
  intros Hx Hp. rewrite has_iff. split.
  - intros (y & Hin & E). rewrite Forall_forall in Hp.
    now rewrite (canonical_eq x y Hx (Hp y Hin) E).
  - intros Hin. exists x. split; [assumption|reflexivity].
Qed.

Lemma distinct_snoc (pages : list Q) (x : Q) :
  distinct pages -> has x pages = false -> distinct (pages ++ [x]).
Proof.
  intros Hd Hx. induction Hd as [|y pages Hy Hd IH]; simpl.
  - repeat constructor.
  - simpl in Hx. apply orb_false_elim in Hx as [Hxy Hx].
    constructor; [|now apply IH].
    apply Forall_app. split; [assumption|].
    constructor; [|constructor]. intros E. apply Qeq_bool_neq in Hxy. apply Hxy. now symmetry.
Qed.

Lemma add_distinct (x : Q) (pages : list Q) : distinct pages -> distinct (add x pages).
Proof.
  intros Hd. unfold add. destruct (has x pages) eqn:Hx; [assumption|].
  now apply distinct_snoc.
Qed.

Lemma add_canonical (x : Q) (pages : list Q) :
  canonical x -> Forall canonical pages -> Forall canonical (add x pages).
Proof.
  intros Hx Hp. unfold add. destruct (has x pages); [assumption|].
  apply Forall_app. split; [assumption|]. now constructor.
Qed.

Lemma add_In (x y : Q) (pages : list Q) :
  canonical x -> Forall canonical pages ->
  In y (add x pages) <-> y = x \/ In y pages.
Proof.
  intros Hx Hp. unfold add. destruct (has x pages) eqn:Hh.
  - apply has_In in Hh; try assumption. split; [now right|]. now intros [->|H].
  - rewrite in_app_iff. simpl. intuition.
Qed.

Lemma add_nonempty (x : Q) (pages : list Q) : add x pages <> [].
Proof.
  unfold add. destruct (has x pages) eqn:Hx.
  - destruct pages; [discriminate Hx|discriminate].
  - destruct pages; discriminate.
Qed.

Lemma add_all_distinct (values pages : list Q) :
  distinct pages -> distinct (add_all values pages).
Proof.
  revert pages. induction values as [|x values IH]; intros pages Hd; simpl; [assumption|].
  now apply IH, add_distinct.
Qed.

Lemma add_all_canonical (values pages : list Q) :
  Forall canonical values -> Forall canonical pages ->
  Forall canonical (add_all values pages).
Proof.
  revert pages. induction values as [|x values IH]; intros pages Hv Hp; simpl; [assumption|].
  inversion_clear Hv. now apply IH, add_canonical.
Qed.

Lemma add_all_In (y : Q) (values pages : list Q) :
  Forall canonical values -> Forall canonical pages ->
  In y (add_all values pages) <-> In y values \/ In y pages.
Proof.
  revert pages. induction values as [|x values IH]; intros pages Hv Hp; simpl.
  - intuition.
  - inversion_clear Hv as [|? ? Hx Hv'].
    rewrite IH by (try assumption; now apply add_canonical).
    rewrite add_In by assumption. intuition.
Qed.

Lemma add_all_app (u v pages : list Q) :
  add_all (u ++ v) pages = add_all v (add_all u pages).
Proof. apply fold_left_app. Qed.

Lemma add_all_nonempty (values pages : list Q) :
  pages <> [] -> add_all values pages <> [].
Proof.
  revert pages. induction values as [|x values IH]; intros pages Hp; simpl; [assumption|].
  apply IH, add_nonempty.
Qed.

(** *** Sorting *)

Lemma insert_sorted_perm (x : Q) (l : list Q) : Permutation (x :: l) (insert_sorted x l).
Proof.
  induction l as [|y l IH]; simpl; [reflexivity|].
  destruct (Qle_bool x y); [reflexivity|].
  rewrite perm_swap. now constructor.
Qed.

Lemma sort_perm (l : list Q) : Permutation l (sort l).
Proof.
  induction l as [|x l IH]; simpl; [reflexivity|].
  rewrite <- insert_sorted_perm. now constructor.
Qed.

Lemma insert_sorted_sorted (x : Q) (l : list Q) :
  StronglySorted Qle l -> StronglySorted Qle (insert_sorted x l).
Proof.
  induction 1 as [|y l Hl IH Hy]; simpl.
  - repeat constructor.
  - destruct (Qle_bool x y) eqn:Hxy.
    + apply Qle_bool_iff in Hxy. constructor; [now constructor|].
      constructor; [assumption|].
      eapply Forall_impl; [|exact Hy]. intros z Hz. now apply Qle_trans with y.
    + assert (y <= x)%Q as Hyx.
      { apply Qlt_le_weak, Qnot_le_lt. intros H. apply Qle_bool_iff in H. congruence. }
      constructor; [assumption|].
      eapply Permutation_Forall; [apply insert_sorted_perm|]. now constructor.
Qed.

Lemma sort_sorted (l : list Q) : StronglySorted Qle (sort l).
Proof.
  induction l as [|x l IH]; simpl; [constructor|]. now apply insert_sorted_sorted.
Qed.

Lemma distinct_perm (l l' : list Q) : Permutation l l' -> distinct l -> distinct l'.
Proof.
  unfold distinct. induction 1 as [|x l l' Hp IH|x y l|l l' l'' _ IH1 _ IH2]; intros Hd.
  - assumption.
  - inversion_clear Hd as [|? ? Hx Hd']. constructor; [|now apply IH].
    eapply Permutation_Forall; eassumption.
  - inversion_clear Hd as [|? ? Hy Hd']. inversion_clear Hd' as [|? ? Hx Hd''].
    inversion_clear Hy as [|? ? Hyx Hy'].
    constructor; [|now constructor].
    constructor; [|assumption]. intros E. apply Hyx. now symmetry.
  - auto.
Qed.

Lemma sorted_distinct_strict (l : list Q) :
  StronglySorted Qle l -> distinct l -> StronglySorted Qlt l.
Proof.
  induction 1 as [|x l Hl IH Hx]; intros Hd; [constructor|].
  inversion_clear Hd as [|? ? Hne Hd']. constructor; [now apply IH|].
  rewrite Forall_forall in *. intros y Hy.
  destruct (proj1 (Qle_lteq x y) (Hx y Hy)) as [H|E]; [assumption|].
  now elim (Hne y Hy).
Qed.

(** The sorted listing of a set is strictly ascending. *)
Lemma sort_strict (pages : list Q) : distinct pages -> StronglySorted Qlt (sort pages).
Proof.
  intros Hd. apply sorted_distinct_strict; [apply sort_sorted|].
  eapply distinct_perm; [apply sort_perm|assumption].
Qed.

Lemma strict_NoDup (l : list Q) : StronglySorted Qlt l -> NoDup l.
Proof.
  induction 1 as [|x l Hl IH Hx]; constructor; [|assumption].
  intros Hin. rewrite Forall_forall in Hx. exact (Qlt_irrefl x (Hx x Hin)).
Qed.

(** A strictly ascending list is determined by its members. *)
Lemma strict_unique (l l' : list Q) :
  StronglySorted Qlt l -> StronglySorted Qlt l' ->
  (forall x, In x l <-> In x l') -> l = l'.
Proof.
  intros Hl. revert l'. induction Hl as [|x l Hl IH Hx]; intros l' Hl' Hiff.
  - destruct l' as [|y l']; [reflexivity|]. destruct (proj2 (Hiff y)). now left.
  - destruct Hl' as [|y l' Hl' Hy].
    + destruct (proj1 (Hiff x)). now left.
    + rewrite Forall_forall in Hx, Hy.
      assert (x = y) as ->.
      { destruct (proj1 (Hiff x) (or_introl eq_refl)) as [E|Hin]; [now symmetry|].
        destruct (proj2 (Hiff y) (or_introl eq_refl)) as [E|Hin']; [assumption|].
        elim (Qlt_irrefl x). apply Qlt_trans with y; auto. }
      f_equal. apply IH; [assumption|]. intros z. split; intros Hz.
      * destruct (proj1 (Hiff z) (or_intror Hz)) as [E|H]; [|assumption].
        subst z. elim (Qlt_irrefl y). auto.
      * destruct (proj2 (Hiff z) (or_intror Hz)) as [E|H]; [|assumption].
        subst z. elim (Qlt_irrefl y). auto.
Qed.

End SetFacts.

(** ** The parser, token by token *)

Module ParserFacts.
Import Str Num Parser Denote StrFacts NumFacts SetFacts.

Local Opaque Qred.

Lemma range_loop_values (fuel : nat) (i e : Q) (pages : list Q) :
  range_loop fuel i e pages = add_all (range_values fuel i e) pages.
Proof.
  revert i pages. induction fuel as [|fuel IH]; intros i pages;
    cbn [range_loop range_values]; [reflexivity|].
  destruct (Qle_bool i e); [apply IH|reflexivity].
Qed.

Lemma range_values_canonical (fuel : nat) (i e : Q) :
  Forall canonical (range_values fuel i e).
Proof.
  revert i. induction fuel as [|fuel IH]; intros i; cbn [range_values]; [constructor|].
  destruct (Qle_bool i e); [|constructor]. constructor; [apply canonical_Qred|apply IH].
Qed.

Lemma rounds_pos (s e : Q) : (s <= e)%Q -> exists n, rounds s e = S n.
Proof.
  intros H. unfold rounds.
  assert (0 <= Qfloor (e - s)) as Hf.
  { change 0 with (Qfloor 0). apply Qfloor_resp_le.
    apply (Qplus_le_l _ _ s). ring_simplify. exact H. }
  exists (Z.to_nat (Qfloor (e - s))). lia.
Qed.

(** Past the guard of a range both ends are finite and in order. *)
Lemma range_guard (start end_ : number) (max : Z) :
  isNaN start || isNaN end_ || gt start end_ || lt start (of_Z 1) || gt end_ (of_Z max) = false ->
  exists s e, start = Finite s /\ end_ = Finite e /\
              (1 <= s)%Q /\ (s <= e)%Q /\ (e <= inject_Z max)%Q.
Proof.
  intros H. repeat (apply orb_false_elim in H as [H ?]).
  destruct start as [|[]|s], end_ as [|[]|e]; try discriminate.
  exists s, e. unfold gt, lt, of_Z in *.
  repeat split; apply Qle_bool_iff; now apply negb_false_iff.
Qed.

Lemma page_guard (page : number) (max : Z) :
  isNaN page || lt page (of_Z 1) || gt page (of_Z max) = false ->
  exists p, page = Finite p /\ (1 <= p)%Q /\ (p <= inject_Z max)%Q.
Proof.
  intros H. repeat (apply orb_false_elim in H as [H ?]).
  destruct page as [|[]|p]; try discriminate.
  exists p. unfold gt, lt, of_Z in *.
  repeat split; apply Qle_bool_iff; now apply negb_false_iff.
Qed.

Lemma split_single (part : string) :
  (2 <=? List.length (split "-" part))%nat = false -> split "-" part = [part].
Proof.
  intros H. rewrite <- includes_char_split in H.
  unfold split. now rewrite split_at_free.
Qed.

(** The loop body adds the values the token denotes, or throws the
    message of the token. *)
Lemma parse_part_denote (part : string) (max : Z) (pages : list Q) :
  parse_part part max pages =
  match part_values part max with
  | Some values => Return (add_all values pages)
  | None => Throw (part_message part max)
  end.
Proof.
  unfold parse_part, part_values, numbers_values, part_message.
  rewrite length_map, <- includes_char_split.
  destruct (includes_char "-" part) eqn:Hdash.
  - destruct (_ || _ || _ || _ || _) eqn:Hguard; [reflexivity|].
    destruct (range_guard _ _ _ Hguard) as (s & e & -> & -> & _).
    unfold add_range. now rewrite range_loop_values.
  - rewrite includes_char_split in Hdash. rewrite (split_single part Hdash).
    cbn [map element nth].
    destruct (_ || _ || _) eqn:Hguard; [reflexivity|].
    destruct (page_guard _ _ Hguard) as (p & -> & _). reflexivity.
Qed.

Lemma for_parts_denote (parts : list string) (max : Z) (pages : list Q) :
  for_parts parts max pages =
  (values <- denoted parts max ;; Return (add_all values pages)).
Proof.
  revert pages. induction parts as [|part rest IH]; intros pages; simpl; [reflexivity|].
  rewrite parse_part_denote. destruct (part_values part max) as [values|]; [|reflexivity].
  simpl. rewrite IH. destruct (denoted rest max) as [values'|m]; [|reflexivity].
  simpl. now rewrite add_all_app.
Qed.

Lemma part_values_canonical (part : string) (max : Z) (values : list Q) :
  part_values part max = Some values -> Forall canonical values.
Proof.
  unfold part_values, numbers_values.
  destruct (2 <=? _)%nat.
  - destruct (_ || _ || _ || _ || _) eqn:Hguard; [discriminate|].
    destruct (range_guard _ _ _ Hguard) as (s & e & -> & -> & _).
    intros [= <-]. apply range_values_canonical.
  - destruct (_ || _ || _) eqn:Hguard; [discriminate|].
    destruct (page_guard _ _ Hguard) as (p & -> & _).
    intros [= <-]. constructor; [apply canonical_Qred|constructor].
Qed.

(** A token that is accepted adds at least one page. *)
Lemma part_values_nonempty (part : string) (max : Z) (values : list Q) :
  part_values part max = Some values -> values <> [].
Proof.
  unfold part_values, numbers_values.
  destruct (2 <=? _)%nat.
  - destruct (_ || _ || _ || _ || _) eqn:Hguard; [discriminate|].
    destruct (range_guard _ _ _ Hguard) as (s & e & -> & -> & _ & Hse & _).
    intros [= <-]. destruct (rounds_pos s e Hse) as [n ->]. cbn [range_values].
    apply Qle_bool_iff in Hse. rewrite Hse. discriminate.
  - destruct (_ || _ || _) eqn:Hguard; [discriminate|].
    destruct (page_guard _ _ Hguard) as (p & -> & _).
    intros [= <-]. discriminate.
Qed.

Lemma denoted_canonical (parts : list string) (max : Z) (values : list Q) :
  denoted parts max = Return values -> Forall canonical values.
Proof.
  revert values. induction parts as [|part rest IH]; intros values; simpl.
  - intros [= <-]. constructor.
  - destruct (part_values part max) as [v|] eqn:Hv; [|discriminate].
    destruct (denoted rest max) as [v'|]; [|discriminate].
    intros [= <-]. apply Forall_app. split; [|now apply IH].
    now apply part_values_canonical with part max.
Qed.

Lemma denoted_nonempty (parts : list string) (max : Z) (values : list Q) :
  parts <> [] -> denoted parts max = Return values -> values <> [].
Proof.
  destruct parts as [|part rest]; [congruence|]. intros _. simpl.
  destruct (part_values part max) as [v|] eqn:Hv; [|discriminate].
  destruct (denoted rest max) as [v'|]; [|discriminate].
  intros [= <-]. apply part_values_nonempty in Hv.
  destruct v; [congruence|discriminate].
Qed.

Lemma denoted_In (parts : list string) (max : Z) (values : list Q) :
  denoted parts max = Return values ->
  forall x, In x values <->
            exists part v, In part parts /\ part_values part max = Some v /\ In x v.
Proof.
  revert values. induction parts as [|part rest IH]; intros values; simpl.
  - intros [= <-] x. split; [intros []|]. now intros (? & ? & [] & _).
  - destruct (part_values part max) as [v|] eqn:Hv; [|discriminate].
    destruct (denoted rest max) as [v'|]; [|discriminate].
    intros [= <-] x. rewrite in_app_iff, (IH v' eq_refl x). split.
    + intros [H|(p & w & Hp & Hw & Hx)].
      * exists part, v. auto.
      * exists p, w. auto.
    + intros (p & w & [<-|Hp] & Hw & Hx).
      * left. congruence.
      * right. exists p, w. auto.
Qed.

Lemma denoted_Return (parts : list string) (max : Z) :
  (exists values, denoted parts max = Return values) <->
  Forall (fun part => part_values part max <> None) parts.
Proof.
  induction parts as [|part rest IH]; simpl.
  - split; [constructor|]. now exists [].
  - destruct (part_values part max) as [v|] eqn:Hv.
    + split.
      * intros [values H]. constructor; [congruence|]. apply IH.
        destruct (denoted rest max) as [v'|]; [now exists v'|discriminate].
      * intros H. inversion_clear H as [|? ? _ Hrest].
        apply IH in Hrest as [v' ->]. now eexists.
    + split; [now intros [? ?]|]. intros H. inversion_clear H. congruence.
Qed.

Lemma parts_of_nonempty (input : string) : parts_of input <> [].
Proof. unfold parts_of, split. now destruct (split_at "," input). Qed.

(** The whole function: the first refused token decides the error;
    otherwise the result is the sorted set of the denoted values. *)
Lemma parsePageString_denote (input : string) (max : Z) :
  parsePageString input max =
  (values <- denoted (parts_of input) max ;; Return (sort (add_all values []))).
Proof.
  unfold parsePageString. rewrite for_parts_denote.
  destruct (denoted (parts_of input) max) as [values|m] eqn:Hd; [|reflexivity].
  simpl. apply denoted_nonempty in Hd; [|apply parts_of_nonempty].
  destruct values as [|x values]; [congruence|]. simpl.
  pose proof (add_all_nonempty values (add x []) (add_nonempty x [])) as Hne.
  destruct (add_all values (add x [])); [congruence|reflexivity].
Qed.

End ParserFacts.

(** ** The returned list *)

Module ResultFacts.
Import Str Num Parser Denote StrFacts NumFacts SetFacts ParserFacts.

Local Opaque Qred.

Lemma parse_Return (input : string) (max : Z) (r : list Q) :
  parsePageString input max = Return r <->
  exists values, denoted (parts_of input) max = Return values /\
                 r = sort (add_all values []).
Proof.
  rewrite parsePageString_denote.
  destruct (denoted (parts_of input) max) as [values|m]; simpl.
  - split; [intros [= <-]; now exists values|]. intros (v & [= <-] & ->). reflexivity.
  - split; [discriminate|]. intros (v & H & _). discriminate.
Qed.

Lemma parse_Throw (input : string) (max : Z) (m : string) :
  parsePageString input max = Throw m <-> denoted (parts_of input) max = Throw m.
Proof.
  rewrite parsePageString_denote.
  destruct (denoted (parts_of input) max) as [values|m']; simpl.
  - split; discriminate.
  - reflexivity.
Qed.

(** The returned list is strictly ascending. *)
Lemma result_strict (input : string) (max : Z) (r : list Q) :
  parsePageString input max = Return r -> StronglySorted Qlt r.
Proof.
  intros H. apply parse_Return in H as (values & _ & ->).
  apply sort_strict, add_all_distinct. constructor.
Qed.

(** Its members are the values the tokens denote. *)
Lemma result_members (input : string) (max : Z) (r : list Q) :
  parsePageString input max = Return r ->
  forall x, In x r <->
            exists part v, In part (parts_of input) /\
                           part_values part max = Some v /\ In x v.
Proof.
  intros H x. apply parse_Return in H as (values & Hd & ->).
  rewrite <- (denoted_In _ _ _ Hd x).
  assert (In x (sort (add_all values [])) <-> In x (add_all values [])) as ->.
  { split; apply Permutation_in; [symmetry|]; apply sort_perm. }
  rewrite add_all_In; [simpl; tauto| |constructor].
  now apply denoted_canonical with (parts_of input) max.
Qed.

(** The returned list depends on the members of the denoted values only. *)
Lemma result_of_members (values values' : list Q) :
  Forall canonical values -> Forall canonical values' ->
  (forall x, In x values <-> In x values') ->
  sort (add_all values []) = sort (add_all values' []).
Proof.
  intros Hc Hc' Hiff.
  apply strict_unique; try (apply sort_strict, add_all_distinct; constructor).
  intros x.
  assert (forall v, In x (sort (add_all v [])) <-> In x (add_all v [])) as E.
  { intros v. split; apply Permutation_in; [symmetry|]; apply sort_perm. }
  rewrite !E, !add_all_In by (try assumption; constructor).
  simpl. rewrite Hiff. tauto.
Qed.

(** *** The range loop runs to its end

    [rounds] is enough fuel: the model satisfies the equation of the
    [for] loop itself, so it stops only when [i <= end] fails. *)

Lemma Qfloor_unique (y : Q) (z : Z) :
  (inject_Z z <= y)%Q -> (y < inject_Z (z + 1))%Q -> Qfloor y = z.
Proof.
  intros Hlo Hhi.
  pose proof (Qfloor_resp_le _ _ Hlo) as H1. rewrite Qfloor_Z in H1.
  pose proof (Qfloor_le y) as H2.
  assert (Qfloor y < z + 1) as H3.
  { rewrite Zlt_Qlt. now apply Qle_lt_trans with y. }
  lia.
Qed.

Lemma Qfloor_pred (x : Q) : Qfloor (x - 1) = Qfloor x - 1.
Proof.
  pose proof (Qfloor_le x) as Hlo. pose proof (Qlt_floor x) as Hhi.
  rewrite inject_Z_plus in Hhi. change (inject_Z 1) with 1%Q in Hhi.
  apply Qfloor_unique.
  - unfold Z.sub. rewrite inject_Z_plus, inject_Z_opp. change (inject_Z 1) with 1%Q. lra.
  - replace (Qfloor x - 1 + 1) with (Qfloor x) by lia. lra.
Qed.

Lemma rounds_succ (s e : Q) :
  (s <= e)%Q -> rounds s e = S (rounds (Qred (s + 1)) e).
Proof.
  intros H. unfold rounds.
  assert (Qfloor (e - Qred (s + 1)) = Qfloor (e - s) - 1) as ->.
  { rewrite <- Qfloor_pred. apply Qfloor_comp. rewrite Qred_correct. ring. }
  assert (0 <= Qfloor (e - s)) as Hf.
  { change 0 with (Qfloor 0). apply Qfloor_resp_le. lra. }
  lia.
Qed.

Lemma range_loop_step (s e : Q) (pages : list Q) :
  range_loop (rounds s e) s e pages =
  if Qle_bool s e
  then range_loop (rounds (Qred (s + 1)) e) (Qred (s + 1)) e (add (Qred (s - 1)) pages)
  else pages.
Proof.
  destruct (Qle_bool s e) eqn:Hse.
  - apply Qle_bool_iff in Hse as Hle. rewrite (rounds_succ s e Hle).
    cbn [range_loop]. now rewrite Hse.
  - destruct (rounds s e); cbn [range_loop]; [reflexivity|]. now rewrite Hse.
Qed.

(** *** Tokens made of integers *)

Lemma Qfloor_sub (a b : Z) : Qfloor (inject_Z b - inject_Z a) = b - a.
Proof.
  rewrite <- (Qfloor_Z (b - a)). apply Qfloor_comp.
  unfold Z.sub, Qminus. now rewrite inject_Z_plus, inject_Z_opp.
Qed.

Lemma range_values_Z (n : nat) (a b : Z) :
  Z.of_nat n = b - a + 1 ->
  range_values n (inject_Z a) (inject_Z b) =
  map (fun k => inject_Z (a - 1 + Z.of_nat k)) (seq 0 n).
Proof.
  revert a. induction n as [|n IH]; intros a Hn; [reflexivity|].
  cbn [range_values seq map].
  rewrite Qle_bool_Z. destruct (Z.leb_spec a b); [|lia].
  rewrite Qred_pred, Qred_succ, IH by lia.
  f_equal; [f_equal; lia|].
  rewrite <- seq_shift, map_map. apply map_ext. intros k. f_equal. lia.
Qed.

Lemma range_values_zero_based (a b : Z) :
  a <= b ->
  range_values (rounds (inject_Z a) (inject_Z b)) (inject_Z a) (inject_Z b) = zero_based a b.
Proof.
  intros H. unfold rounds, zero_based. rewrite Qfloor_sub.
  apply range_values_Z. lia.
Qed.

(** A token with no dash that converts to the integer [p]. *)
Lemma part_values_page (part : string) (max p : Z) :
  includes_char "-" part = false -> Number part = of_Z p ->
  part_values part max =
  if (p <? 1) || (max <? p) then None else Some [inject_Z (p - 1)].
Proof.
  intros Hdash Hp. unfold part_values, numbers_values.
  rewrite length_map, <- includes_char_split, Hdash.
  rewrite includes_char_split in Hdash. rewrite (split_single part Hdash).
  cbn [map element nth]. rewrite Hp, lt_Z, gt_Z. cbn [isNaN of_Z orb].
  destruct (_ || _); [reflexivity|]. now rewrite Qred_pred.
Qed.

(** A token whose first two pieces convert to the integers [a] and [b]. *)
Lemma part_values_range (part x y : string) (rest : list string) (max a b : Z) :
  split "-" part = x :: y :: rest -> Number x = of_Z a -> Number y = of_Z b ->
  part_values part max =
  if (b <? a) || (a <? 1) || (max <? b) then None else Some (zero_based a b).
Proof.
  intros Hsplit Ha Hb. unfold part_values, numbers_values.
  rewrite Hsplit. cbn [map element nth List.length Nat.leb].
  rewrite Ha, Hb, gt_Z, lt_Z, gt_Z. cbn [isNaN of_Z orb].
  destruct (Z.ltb_spec b a); [reflexivity|]. cbn [orb].
  destruct (_ || _); [reflexivity|].
  now rewrite range_values_zero_based.
Qed.

Lemma zero_based_strict (a b : Z) : StronglySorted Qlt (zero_based a b).
Proof.
  unfold zero_based. generalize (Z.to_nat (b - a + 1)) as n. generalize 0%nat as s.
  intros s n. revert s. induction n as [|n IH]; intros s; simpl; constructor.
  - apply IH.
  - apply Forall_forall. intros x Hx. apply in_map_iff in Hx as (k & <- & Hk).
    apply in_seq in Hk. rewrite <- Zlt_Qlt. lia.
Qed.

Lemma strict_distinct (l : list Q) : StronglySorted Qlt l -> distinct l.
Proof.
  induction 1 as [|x l Hl IH Hx]; constructor; [|assumption].
  eapply Forall_impl; [|exact Hx]. intros y Hy E. rewrite E in Hy.
  exact (Qlt_irrefl y Hy).
Qed.

Lemma add_all_fresh (values pages : list Q) :
  distinct (pages ++ values) -> add_all values pages = (pages ++ values)%list.
Proof.
  revert pages. induction values as [|x values IH]; intros pages Hd; simpl.
  - now rewrite app_nil_r.
  - assert (has x pages = false) as Hx.
    { clear IH. induction pages as [|y pages IHp]; [reflexivity|].
      simpl in Hd. inversion_clear Hd as [|? ? Hy Hd']. simpl.
      rewrite (IHp Hd'), orb_false_r.
      apply Forall_app in Hy as [_ Hy]. inversion_clear Hy as [|? ? Hyx _].
      destruct (Qeq_bool x y) eqn:E; [|reflexivity].
      apply Qeq_bool_iff in E. elim Hyx. now symmetry. }
    unfold add. rewrite Hx, IH; rewrite <- app_assoc; [reflexivity|exact Hd].
Qed.

Lemma sort_strict_id (l : list Q) : StronglySorted Qlt l -> sort l = l.
Proof.
  induction 1 as [|x l Hl IH Hx]; simpl; [reflexivity|].
  rewrite IH. destruct l as [|y l]; [reflexivity|]. simpl.
  inversion_clear Hx as [|? ? Hxy _]. apply Qlt_le_weak, Qle_bool_iff in Hxy.
  now rewrite Hxy.
Qed.

(** The set of one run of consecutive pages, listed. *)
Lemma sort_zero_based (a b : Z) : sort (add_all (zero_based a b) []) = zero_based a b.
Proof.
  rewrite add_all_fresh by (apply strict_distinct, zero_based_strict).
  apply sort_strict_id, zero_based_strict.
Qed.

End ResultFacts.

(** * The page-selection parser against its description *)

Module ParserSpec.
Import Str Num Parser Shape Denote Refusal.
Import StrFacts PadFacts NumFacts SetFacts ParserFacts ResultFacts.

Local Opaque Qred.

(** White space around a token does not change what it denotes. *)
Lemma part_values_padded (part part' : string) (max : Z) :
  padded part part' -> part_values part' max = part_values part max.
Proof.
  intros H. unfold part_values. f_equal.
  apply Numbers_padded, split_padded; [reflexivity|assumption].
Qed.

Lemma part_values_trim (part : string) (max : Z) :
  part_values (trim part) max = part_values part max.
Proof. symmetry. apply part_values_padded, padded_trim. Qed.

Lemma zero_based_In (a b : Z) (x : Q) :
  In x (zero_based a b) <-> exists k, a <= k <= b /\ x = inject_Z (k - 1).
Proof.
  unfold zero_based. rewrite in_map_iff. split.
  - intros (n & <- & Hn). apply in_seq in Hn.
    exists (a + Z.of_nat n). split; [lia|]. f_equal. lia.
  - intros (k & Hk & ->). exists (Z.to_nat (k - a)). split; [f_equal; lia|].
    apply in_seq. lia.
Qed.

Lemma range_token_split (a b : Z) :
  0 <= a -> 0 <= b -> split "-" (dec a ++ "-" ++ dec b) = [dec a; dec b].
Proof.
  intros Ha Hb. change (dec a ++ "-" ++ dec b) with (join "-" [dec a; dec b]).
  apply split_join. repeat constructor; apply digits_free; try reflexivity;
    now apply dec_digits_only.
Qed.

Lemma range_token_values (max a b : Z) :
  1 <= a <= b -> b <= max ->
  part_values (dec a ++ "-" ++ dec b) max = Some (zero_based a b).
Proof.
  intros H Hmax.
  rewrite (part_values_range _ (dec a) (dec b) [] max a b);
    [|apply range_token_split; lia|apply Number_dec; lia|apply Number_dec; lia].
  destruct (Z.ltb_spec b a); [lia|]. destruct (Z.ltb_spec a 1); [lia|].
  destruct (Z.ltb_spec max b); [lia|]. reflexivity.
Qed.

Lemma single_token_parts (token : string) :
  includes_char "," token = false -> parts_of token = [trim token].
Proof. intros H. unfold parts_of, split. now rewrite split_at_free. Qed.

(** C1.  For every [max] and every token [a-b] written with integers
    [1 <= a <= b <= max], [parsePageString] returns exactly the zero-based
    indices [a-1], ..., [b-1], the inclusive range moved down by one; in a
    longer input that parses, the token puts every one of them in the
    result. *)
Theorem range_token_indices (max a b : Z) (H : 1 <= a <= b) (Hmax : b <= max) :
  parsePageString (dec a ++ "-" ++ dec b) max = Return (zero_based a b) /\
  (forall x, In x (zero_based a b) <-> exists k, a <= k <= b /\ x = inject_Z (k - 1)) /\
  (forall input r,
      In (dec a ++ "-" ++ dec b) (parts_of input) ->
      parsePageString input max = Return r ->
      incl (zero_based a b) r).
Proof.
  pose proof (range_token_values max a b H Hmax) as Hv.
  split; [|split].
  - apply parse_Return. exists (zero_based a b). split; [|now rewrite sort_zero_based].
    rewrite single_token_parts.
    + cbn [denoted]. rewrite part_values_trim, Hv. cbn [bind denoted].
      now rewrite app_nil_r.
    + rewrite !includes_char_app, (digits_free "," (dec a)), (digits_free "," (dec b));
        try reflexivity; apply dec_digits_only; lia.
  - apply zero_based_In.
  - intros input r Hin Hr x Hx.
    apply (result_members input max r Hr). eauto.
Qed.

Lemma range_token_indices_witness :
  1 <= 3 <= 5 /\ 5 <= 10 /\
  parsePageString "3-5" 10 = Return [inject_Z 2; inject_Z 3; inject_Z 4].
Proof.
  split; [lia|]. split; [lia|].
  apply (range_token_indices 10 3 5); lia.
Defined.

(** *** Refusal *)




Lemma denoted_Throw (parts : list string) (max : Z) (m : string) :
  denoted parts max = Throw m <->
  exists pre part post,
    parts = (pre ++ part :: post)%list /\
    (forall p, In p pre -> part_values p max <> None) /\
    part_values part max = None /\ m = part_message part max.
Proof.
  induction parts as [|part rest IH]; simpl.
  - split; [discriminate|]. intros (pre & p & post & E & _). now destruct pre.
  - destruct (part_values part max) as [v|] eqn:Hv.
    + destruct (denoted rest max) as [v'|m'] eqn:Hrest; simpl.
      * split; [discriminate|]. intros (pre & p & post & E & Hpre & Hp & Hm).
        destruct pre as [|q pre]; simpl in E; injection E as -> ->; [congruence|].
        assert (Return v' = Throw m) as Habs; [|discriminate].
        apply IH. exists pre, p, post. repeat split; try assumption.
        intros x Hx. apply Hpre. now right.
      * split.
        -- intros [= ->]. apply proj1 in IH.
           destruct (IH eq_refl) as (pre & p & post & -> & Hpre & Hp & Hm).
           exists (part :: pre), p, post. repeat split; try assumption.
           intros x [<-|Hx]; [congruence|now apply Hpre].
        -- intros (pre & p & post & E & Hpre & Hp & Hm).
           destruct pre as [|q pre]; simpl in E; injection E as -> ->; [congruence|].
           f_equal. assert (Throw (A := list Q) m' = Throw m) as Habs.
           { apply IH. exists pre, p, post. repeat split; try assumption.
             intros x Hx. apply Hpre. now right. }
           congruence.
    + split.
      * intros [= <-]. exists [], part, rest. repeat split; try assumption. intros ? [].
      * intros (pre & p & post & E & Hpre & Hp & Hm).
        destruct pre as [|q pre]; simpl in E; injection E as -> ->.
        -- now subst m.
        -- elim (Hpre q); [now left|assumption].
Qed.


(** *** Tokens that are accepted *)

(** Turns a call on a literal input into the list of its tokens. *)
Ltac by_tokens :=
  rewrite parsePageString_denote;
  match goal with
  | |- context [parts_of ?input] =>
      let parts := eval vm_compute in (parts_of input) in
      change (parts_of input) with parts
  end;
  cbn [denoted].

Lemma page_accepted (part : string) (max p : Z) :
  includes_char "-" part = false -> Number part = of_Z p -> 1 <= p <= max ->
  part_values part max = Some [inject_Z (p - 1)].
Proof.
  intros Hdash Hp H. rewrite (part_values_page part max p Hdash Hp).
  destruct (Z.ltb_spec p 1); [lia|]. destruct (Z.ltb_spec max p); [lia|]. reflexivity.
Qed.

Lemma range_accepted (part x y : string) (rest : list string) (max a b : Z) :
  split "-" part = x :: y :: rest -> Number x = of_Z a -> Number y = of_Z b ->
  1 <= a <= b -> b <= max ->
  part_values part max = Some (zero_based a b).
Proof.
  intros Hsplit Ha Hb H Hmax. rewrite (part_values_range part x y rest max a b Hsplit Ha Hb).
  destruct (Z.ltb_spec b a); [lia|]. destruct (Z.ltb_spec a 1); [lia|].
  destruct (Z.ltb_spec max b); [lia|]. reflexivity.
Qed.

Lemma page_below (part : string) (max p : Z) :
  includes_char "-" part = false -> Number part = of_Z p -> p < 1 ->
  part_values part max = None.
Proof.
  intros Hdash Hp H. rewrite (part_values_page part max p Hdash Hp).
  destruct (Z.ltb_spec p 1); [reflexivity|lia].
Qed.

(** C3.  Whenever [parsePageString] returns, the list is strictly ascending
    and has no duplicate; it does not depend on the order of the tokens,
    nor on how the tokens overlap, only on the set of pages they denote.
    3,1,2 and 1,2,3 both give [0,1,2]; 1,1,1-1 gives [0]. *)
Theorem result_ascending_whatever_the_order :
  (forall input max r,
      parsePageString input max = Return r -> StronglySorted Qlt r /\ NoDup r) /\
  (forall input input' max r,
      parsePageString input max = Return r ->
      Permutation (parts_of input) (parts_of input') ->
      parsePageString input' max = Return r) /\
  (forall input input' max values values',
      denoted (parts_of input) max = Return values ->
      denoted (parts_of input') max = Return values' ->
      (forall x, In x values <-> In x values') ->
      parsePageString input max = parsePageString input' max) /\
  (forall max, 3 <= max ->
      parsePageString "3,1,2" max = Return [inject_Z 0; inject_Z 1; inject_Z 2] /\
      parsePageString "1,2,3" max = Return [inject_Z 0; inject_Z 1; inject_Z 2]) /\
  (forall max, 1 <= max -> parsePageString "1,1,1-1" max = Return [inject_Z 0]).
Proof.
  split; [|split; [|split; [|split]]].
  - intros input max r H. apply result_strict in H. split; [assumption|].
    now apply strict_NoDup.
  - intros input input' max r H Hperm.
    apply parse_Return in H as (values & Hd & ->).
    assert (exists values', denoted (parts_of input') max = Return values') as [values' Hd'].
    { apply denoted_Return. eapply Permutation_Forall; [exact Hperm|].
      apply denoted_Return. now exists values. }
    apply parse_Return. exists values'. split; [assumption|].
    apply result_of_members; try (eapply denoted_canonical; eassumption).
    intros x. rewrite (denoted_In _ _ _ Hd x), (denoted_In _ _ _ Hd' x).
    split; intros (p & v & Hp & Hv); exists p, v; (split; [|assumption]).
    + now apply Permutation_in with (parts_of input).
    + apply Permutation_in with (parts_of input'); [now symmetry|assumption].
  - intros input input' max values values' Hd Hd' Hiff.
    rewrite !parsePageString_denote, Hd, Hd'. cbn [bind]. f_equal.
    apply result_of_members; try (eapply denoted_canonical; eassumption). exact Hiff.
  - intros max Hmax. split; by_tokens.
    + rewrite (page_accepted "3" max 3), (page_accepted "1" max 1),
        (page_accepted "2" max 2) by (reflexivity || lia).
      reflexivity.
    + rewrite (page_accepted "3" max 3), (page_accepted "1" max 1),
        (page_accepted "2" max 2) by (reflexivity || lia).
      reflexivity.
  - intros max Hmax. by_tokens.
    rewrite (page_accepted "1" max 1) by (reflexivity || lia).
    rewrite (range_accepted "1-1" "1" "1" [] max 1 1) by (reflexivity || lia).
    reflexivity.
Qed.

Lemma result_ascending_whatever_the_order_witness :
  parsePageString "1,2,3" 3 = Return [inject_Z 0; inject_Z 1; inject_Z 2] /\
  Permutation (parts_of "1,2,3") (parts_of " 3, 1,2") /\
  parsePageString " 3, 1,2" 3 = Return [inject_Z 0; inject_Z 1; inject_Z 2] /\
  StronglySorted Qlt [inject_Z 0; inject_Z 1; inject_Z 2].
Proof.
  assert (parsePageString "1,2,3" 3 = Return [inject_Z 0; inject_Z 1; inject_Z 2]) as H
    by reflexivity.
  assert (Permutation (parts_of "1,2,3") (parts_of " 3, 1,2")) as Hperm.
  { change (Permutation ["1"; "2"; "3"] ["3"; "1"; "2"]).
    apply Permutation_sym, (Permutation_cons_app ["1"; "2"] []). reflexivity. }
  split; [exact H|]. split; [exact Hperm|]. split.
  - exact (proj1 (proj2 result_ascending_whatever_the_order) _ _ _ _ H Hperm).
  - exact (proj1 (proj1 result_ascending_whatever_the_order _ _ _ H)).
Defined.

(** *** Bounds of the returned values *)

Lemma range_values_bounds (fuel : nat) (i e x : Q) :
  In x (range_values fuel i e) -> (i - 1 <= x)%Q /\ (x <= e - 1)%Q.
Proof.
  revert i. induction fuel as [|fuel IH]; intros i; cbn [range_values]; [intros []|].
  destruct (Qle_bool i e) eqn:Hie; [|intros []].
  apply Qle_bool_iff in Hie. intros [<-|Hin].
  - rewrite Qred_correct. split; lra.
  - apply IH in Hin as [Hlo Hhi]. rewrite Qred_correct in Hlo. split; lra.
Qed.

Lemma part_values_bounds (part : string) (max : Z) (values : list Q) (x : Q) :
  part_values part max = Some values -> In x values ->
  (0 <= x)%Q /\ (x < inject_Z max)%Q.
Proof.
  unfold part_values, numbers_values.
  destruct (2 <=? _)%nat.
  - destruct (_ || _ || _ || _ || _) eqn:Hguard; [discriminate|].
    destruct (range_guard _ _ _ Hguard) as (s & e & -> & -> & Hs & Hse & He).
    intros [= <-] Hin. apply range_values_bounds in Hin as [Hlo Hhi]. split; lra.
  - destruct (_ || _ || _) eqn:Hguard; [discriminate|].
    destruct (page_guard _ _ Hguard) as (p & -> & Hp & Hmax).
    intros [= <-] [<-|[]]. rewrite Qred_correct. split; lra.
Qed.

(** Every value returned lies in [0, max). *)
Lemma result_in_bounds (input : string) (max : Z) (r : list Q) (x : Q) :
  parsePageString input max = Return r -> In x r ->
  (0 <= x)%Q /\ (x < inject_Z max)%Q.
Proof.
  intros H Hin. apply (result_members input max r H) in Hin as (part & v & _ & Hv & Hx).
  exact (part_values_bounds part max v x Hv Hx).
Qed.

(** C4, at the token 1.5.  The token is converted with [Number], which
    takes 1.5 as it stands: it passes the bounds checks and the returned
    list holds one half, which is no integer.  (The bounds themselves hold
    of every returned value: [result_in_bounds].) *)
Theorem fraction_token_accepted :
  parsePageString "1.5" 10 = Return [1 # 2] /\
  (forall z : Z, ~ (1 # 2 == inject_Z z)).
Proof.
  split; [reflexivity|].
  intros z E. unfold Qeq, inject_Z in E. simpl in E. lia.
Qed.

(** *** Empty tokens *)

Lemma empty_part_refused (max : Z) : part_values EmptyString max = None.
Proof. now apply page_below with 0. Qed.

(** An input with an empty token never returns. *)
Lemma empty_token_throws (input : string) (max : Z) :
  In EmptyString (parts_of input) -> exists m, parsePageString input max = Throw m.
Proof.
  intros Hin. destruct (parsePageString input max) as [r|m] eqn:H; [|now exists m].
  apply parse_Return in H as (values & Hd & _).
  assert (exists v, denoted (parts_of input) max = Return v) as Hex by now exists values.
  apply denoted_Return in Hex. rewrite Forall_forall in Hex.
  elim (Hex EmptyString Hin). apply empty_part_refused.
Qed.

(** C5, at the input 1,,2.  The empty token between the two commas is
    converted to the number 0, which is below 1, and the call throws the
    "Invalid page" message with the empty token between the quotes. *)
Theorem empty_token_refused :
  (forall max, 1 <= max -> parsePageString "1,,2" max = Throw (invalid_page EmptyString max)) /\
  parsePageString "1,,2" 2 =
    Throw ("Invalid page: " ++ quoted EmptyString ++ ". Pages must be between 1 and 2.").
Proof.
  split; [|reflexivity].
  intros max Hmax. by_tokens.
  rewrite (page_accepted "1" max 1) by (reflexivity || lia).
  now rewrite empty_part_refused.
Qed.

Lemma empty_token_refused_witness :
  1 <= 10 /\ parsePageString "1,,2" 10 = Throw (invalid_page EmptyString 10).
Proof.
  split; [lia|]. apply (proj1 empty_token_refused 10). lia.
Defined.

Lemma part_message_not_final (part : string) (max : Z) :
  part_message part max <> no_pages_selected /\ part_message part max <> no_valid_pages.
Proof.
  unfold part_message, invalid_range, invalid_page.
  destruct (includes_char "-" part); split; discriminate.
Qed.

(** C6, at the empty input and at one blank.  The only token is empty, it
    is converted to 0 and refused with the "Invalid page" message; neither
    of the two closing messages is ever thrown, for any input. *)
Theorem closing_messages_never_thrown :
  (forall max, parsePageString EmptyString max = Throw (invalid_page EmptyString max)) /\
  (forall max, parsePageString " " max = Throw (invalid_page EmptyString max)) /\
  (forall input max,
      parsePageString input max <> Throw no_pages_selected /\
      parsePageString input max <> Throw no_valid_pages).
Proof.
  split; [|split].
  - intros max. by_tokens. now rewrite empty_part_refused.
  - intros max. by_tokens. now rewrite empty_part_refused.
  - intros input max.
    split; intros H; apply parse_Throw, denoted_Throw in H;
      destruct H as (pre & part & post & _ & _ & _ & Hm);
      destruct (part_message_not_final part max); congruence.
Qed.

(** *** White space and extra pieces *)

Lemma returned_parse (input : string) (max : Z) :
  returned (parsePageString input max) =
  option_map (fun values => sort (add_all values []))
             (returned (denoted (parts_of input) max)).
Proof.
  rewrite parsePageString_denote. now destruct (denoted (parts_of input) max).
Qed.

Lemma denoted_returned_ext (parts parts' : list string) (max : Z) :
  Forall2 (fun p p' => part_values p' max = part_values p max) parts parts' ->
  returned (denoted parts' max) = returned (denoted parts max).
Proof.
  induction 1 as [|p p' parts parts' Hp _ IH]; [reflexivity|].
  cbn [denoted]. rewrite Hp. destruct (part_values p max) as [v|]; [|reflexivity].
  destruct (denoted parts max), (denoted parts' max); simpl in *; congruence.
Qed.

Lemma split_pieces_free (c sep : ascii) (s : string) :
  includes_char c s = false ->
  Forall (fun q => includes_char c q = false) (split sep s).
Proof.
  intros H. rewrite <- (join_split sep s) in H.
  destruct (split sep s) as [|p ps]; [constructor|].
  revert p H. induction ps as [|q ps IH]; intros p H.
  - now repeat constructor.
  - change (join sep (p :: q :: ps)) with (p ++ String sep (join sep (q :: ps))) in H.
    rewrite includes_char_app in H. apply orb_false_elim in H as [Hp H].
    simpl in H. apply orb_false_elim in H as [_ H]. constructor; [assumption|now apply IH].
Qed.

Lemma padded_pieces_free (c : ascii) (ps ps' : list string) :
  is_ws c = false -> Forall2 padded ps ps' ->
  Forall (fun q => includes_char c q = false) ps ->
  Forall (fun q => includes_char c q = false) ps'.
Proof.
  intros Hc. induction 1 as [|p p' ps ps' Hp _ IH]; intros H; [constructor|].
  inversion_clear H as [|? ? Hfree Hrest]. constructor; [|now apply IH].
  now rewrite (padded_includes c p p' Hc Hp).
Qed.

(** A token whose pieces are the pieces of [token], padded. *)
Lemma padded_token_values (token : string) (ps' : list string) (max : Z) :
  Forall2 padded (split "-" token) ps' ->
  part_values (join "-" ps') max = part_values token max.
Proof.
  intros H. unfold part_values. f_equal.
  assert (split "-" (join "-" ps') = ps') as ->.
  { pose proof (padded_pieces_free "-" _ _ eq_refl H (split_free "-" token)) as Hfree.
    destruct ps' as [|p' ps']; [|now apply split_join].
    inversion H as [E|]. symmetry in E. now apply split_nonempty in E. }
  now apply Numbers_padded.
Qed.

Lemma padded_tokens_values (tokens : list string) (pss' : list (list string)) (max : Z) :
  Forall2 (Forall2 padded) (map (split "-") tokens) pss' ->
  Forall2 (fun p p' => part_values p' max = part_values p max)
          (map trim tokens) (map trim (map (join "-") pss')).
Proof.
  revert pss'. induction tokens as [|t tokens IH]; intros pss' H; inversion_clear H; simpl.
  - constructor.
  - constructor; [|now apply IH].
    rewrite !part_values_trim. now apply padded_token_values.
Qed.

Lemma padded_tokens_free (tokens : list string) (pss' : list (list string)) :
  Forall (fun t => includes_char "," t = false) tokens ->
  Forall2 (Forall2 padded) (map (split "-") tokens) pss' ->
  Forall (fun t => includes_char "," t = false) (map (join "-") pss').
Proof.
  revert pss'. induction tokens as [|t tokens IH]; intros pss' Hfree H;
    inversion_clear H; simpl; constructor.
  - inversion_clear Hfree as [|? ? Ht _].
    apply join_free; [reflexivity|].
    eapply padded_pieces_free; [reflexivity|eassumption|].
    now apply split_pieces_free.
  - inversion_clear Hfree. now apply IH.
Qed.

(** C7.  White space around the tokens and around the ends of a range is
    tolerated.  Padding whole tokens leaves the outcome as it is; padding
    the pieces between the dashes as well leaves the returned list as it is
    (an input that is refused stays refused, the message quoting the token
    as typed).  With [max = 10], parsing "1, 3-5, 8" gives 0, 2, 3, 4, 7. *)
Theorem white_space_tolerated :
  (forall input max tokens',
      Forall2 padded (split "," input) tokens' ->
      parsePageString (join "," tokens') max = parsePageString input max) /\
  (forall input max pss',
      Forall2 (Forall2 padded) (pieces input) pss' ->
      returned (parsePageString (unpieces pss') max) =
      returned (parsePageString input max)) /\
  parsePageString "1, 3-5, 8" 10 =
    Return [inject_Z 0; inject_Z 2; inject_Z 3; inject_Z 4; inject_Z 7].
Proof.
  split; [|split; [|reflexivity]].
  - intros input max tokens' H.
    rewrite !parsePageString_denote. f_equal. unfold parts_of.
    assert (split "," (join "," tokens') = tokens') as ->.
    { pose proof (padded_pieces_free "," _ _ eq_refl H (split_free "," input)) as Hfree.
      destruct tokens' as [|t' tokens']; [|now apply split_join].
      inversion H as [E|]. symmetry in E. now apply split_nonempty in E. }
    clear -H. induction H as [|t t' ts ts' Ht _ IH]; simpl; [reflexivity|].
    now rewrite IH, (trim_padded t t' Ht).
  - intros input max pss' H. unfold pieces, unpieces in *.
    rewrite !returned_parse. f_equal. apply denoted_returned_ext.
    unfold parts_of at 2.
    assert (split "," (join "," (map (join "-") pss')) = map (join "-") pss') as ->.
    { pose proof (padded_tokens_free _ _ (split_free "," input) H) as Hfree.
      destruct (map (join "-") pss') as [|t' ts'] eqn:E; [|now apply split_join].
      destruct pss'; [|discriminate E]. inversion H as [E'|].
      symmetry in E'. apply map_eq_nil in E'. now apply split_nonempty in E'. }
    now apply padded_tokens_values.
Qed.

Lemma white_space_tolerated_witness :
  Forall2 (Forall2 padded) (pieces "1,3-5") [[" 1 "]; ["  3 "; " 5"]] /\
  returned (parsePageString " 1 ,  3 - 5" 10) = returned (parsePageString "1,3-5" 10).
Proof.
  assert (Forall2 (Forall2 padded) (pieces "1,3-5") [[" 1 "]; ["  3 "; " 5"]]) as H.
  { change (pieces "1,3-5") with [["1"]; ["3"; "5"]].
    repeat constructor.
    - exists " ", " ". repeat split.
    - exists "  ", " ". repeat split.
    - exists " ", EmptyString. repeat split. }
  split; [exact H|].
  exact (proj1 (proj2 white_space_tolerated) "1,3-5" 10 _ H).
Defined.

(** C10.  A token with two dashes or more is read as the range of its
    first two pieces, the others are dropped: the loop body returns for it
    what it returns for the first two pieces joined by a dash.  With
    [3 <= max] the token 1-3-5 is accepted and gives 0, 1, 2, as 1-3
    does. *)
Theorem extra_pieces_dropped :
  (forall token p1 p2 rest max pages,
      split "-" token = p1 :: p2 :: rest ->
      returned (parse_part token max pages) =
      returned (parse_part (p1 ++ "-" ++ p2) max pages)) /\
  (forall max, 3 <= max ->
      parsePageString "1-3-5" max = Return [inject_Z 0; inject_Z 1; inject_Z 2] /\
      parsePageString "1-3" max = Return [inject_Z 0; inject_Z 1; inject_Z 2]).
Proof.
  split.
  - intros token p1 p2 rest max pages Hsplit.
    rewrite !parse_part_denote.
    assert (part_values (p1 ++ "-" ++ p2) max = part_values token max) as ->.
    { unfold part_values. rewrite Hsplit.
      change (p1 ++ "-" ++ p2) with (join "-" [p1; p2]).
      rewrite split_join; [reflexivity|].
      pose proof (split_free "-" token) as Hfree. rewrite Hsplit in Hfree.
      inversion_clear Hfree as [|? ? H1 Hfree']. inversion_clear Hfree' as [|? ? H2 _].
      now repeat constructor. }
    now destruct (part_values token max).
  - intros max Hmax. split; by_tokens.
    + rewrite (range_accepted "1-3-5" "1" "3" ["5"] max 1 3) by (reflexivity || lia).
      reflexivity.
    + rewrite (range_accepted "1-3" "1" "3" [] max 1 3) by (reflexivity || lia).
      reflexivity.
Qed.

Lemma extra_pieces_dropped_witness :
  split "-" "2-4-9-1" = ["2"; "4"; "9"; "1"] /\
  returned (parse_part "2-4-9-1" 10 []) = returned (parse_part "2-4" 10 []).
Proof.
  split; [reflexivity|].
  exact (proj1 extra_pieces_dropped "2-4-9-1" "2" "4" ["9"; "1"] 10 [] eq_refl).
Defined.

End ParserSpec.

Module AppFacts.
Import Str Parser App AppSpec.

(** *** [includes] *)






(** C8 as it is written fails: a collaborator error that carries a
    message is shown with that very message, not with the generic one. *)
Lemma collaborator_message_shown :
  extract_pages (failing_load parse_error) tt ready_state = Raised parse_error /\
  error (handleExtract (failing_load parse_error) ready_state) =
    Some "Failed to parse PDF document" /\
  error (handleExtract (failing_load parse_error) ready_state) <> Some unexpected.
Proof. repeat split. discriminate. Qed.

(** C8, amended.  A failure of the reading, of the page copying or of the
    serialization never leaves the handler: it ends with no output, the
    processing flag down, and as error the message the failure carries, or
    the generic "unexpected error" message when it carries none or an
    empty one. *)
Theorem extract_failure_reported
    {File Bytes Doc Page : Type} (env : Collaborators File Bytes Doc Page)
    (f : File) (st : State File Bytes) (e : Thrown)
    (Hfile : file st = Some f) (Hidle : isProcessing st = false)
    (Hfail : extract_pages env f st = Raised e) :
  error (handleExtract env st) = Some (message_or e unexpected) /\
  outputPdfUrl (handleExtract env st) = None /\
  outputPdfBytes (handleExtract env st) = None /\
  isProcessing (handleExtract env st) = false /\
  (message e = None \/ message e = Some EmptyString -> message_or e unexpected = unexpected) /\
  (forall m, message e = Some m -> m <> EmptyString -> message_or e unexpected = m).
Proof.
  unfold handleExtract. rewrite Hfile, Hidle.
  assert (extract_pages env f
            (setOutput File Bytes None None
               (setError File Bytes None (setIsProcessing File Bytes true st))) = Raised e) as ->
    by exact Hfail.
  cbn. repeat split.
  - unfold message_or. now intros [->| ->].
  - intros m Hm Hne. unfold message_or. rewrite Hm.
    destruct m; [congruence|reflexivity].
Qed.

Lemma extract_failure_reported_witness :
  file ready_state = Some tt /\ isProcessing ready_state = false /\
  extract_pages (failing_load parse_error) tt ready_state = Raised parse_error /\
  error (handleExtract (failing_load parse_error) ready_state) =
    Some (message_or parse_error unexpected).
Proof.
  split; [reflexivity|]. split; [reflexivity|]. split; [reflexivity|].
  exact (proj1 (extract_failure_reported (failing_load parse_error) tt ready_state
                  parse_error eq_refl eq_refl eq_refl)).
Defined.

End AppFacts.

(** * More about the parser *)

Module ParserMore.
Import Str Num Parser Shape Denote Refusal Tokens.
Import StrFacts PadFacts NumFacts SetFacts ParserFacts ResultFacts ParserSpec.

Local Opaque Qred.

(** *** Numerals *)

Lemma dec_nonneg_digits (n : Z) : 0 <= n -> all_digits (dec_nonneg n) = true.
Proof.
  intros Hn. destruct (scan_dec_nonneg n Hn) as [k E].
  exact (scan_all_digits _ _ _ _ _ E).
Qed.

Lemma dec_negative (n : Z) : n < 0 -> dec n = String "-" (dec_nonneg (- n)).
Proof. intros Hn. unfold dec. destruct (Z.ltb_spec n 0); [reflexivity|lia]. Qed.

Lemma dec_comma_free (n : Z) : includes_char "," (dec n) = false.
Proof.
  destruct (Z.lt_ge_cases n 0) as [Hn|Hn].
  - rewrite dec_negative by assumption. simpl.
    apply digits_free; [reflexivity|]. apply dec_nonneg_digits. lia.
  - apply digits_free; [reflexivity|]. now apply dec_digits_only.
Qed.

Lemma text_comma_free (t : token) : includes_char "," (text t) = false.
Proof.
  destruct t as [p|a b]; simpl; [apply dec_comma_free|].
  rewrite includes_char_app, dec_comma_free. simpl. apply dec_comma_free.
Qed.

Lemma selection_parts (ts : list token) :
  ts <> [] -> parts_of (selection ts) = map trim (map text ts).
Proof.
  intros Hne. unfold parts_of, selection. f_equal.
  destruct ts as [|t ts]; [congruence|]. cbn [map]. apply split_join.
  change (text t :: map text ts) with (map text (t :: ts)).
  apply Forall_forall. intros s Hs. apply in_map_iff in Hs as (u & <- & _).
  apply text_comma_free.
Qed.

(** *** What a typed token denotes *)

Lemma text_values_valid (max : Z) (t : token) :
  valid max t ->
  exists v, part_values (text t) max = Some v /\
            forall x, In x v <-> exists k, covers t k /\ x = inject_Z (k - 1).
Proof.
  destruct t as [p|a b]; simpl.
  - intros Hp. exists [inject_Z (p - 1)]. split.
    + apply page_accepted; [|apply Number_dec; lia|assumption].
      apply digits_free; [reflexivity|]. apply dec_digits_only. lia.
    + intros x. simpl. split.
      * intros [<-|[]]. now exists p.
      * intros (k & -> & ->). now left.
  - intros [Hab Hmax]. exists (zero_based a b). split.
    + now apply range_token_values.
    + apply zero_based_In.
Qed.

(** A token that starts with a dash has nothing before the dash: its
    start is [Number] of the empty string, which is 0. *)
Lemma leading_dash_values (rest : string) (max : Z) :
  part_values (String "-" rest) max = None.
Proof.
  unfold part_values, numbers_values, split. cbn [split_at].
  destruct (split_at "-" rest) as [p ps]. rewrite Ascii.eqb_refl.
  cbn [map List.length Nat.leb element nth].
  change (Number EmptyString) with (of_Z 0). rewrite lt_Z.
  cbn [isNaN of_Z orb]. change (0 <? 1) with true.
  now rewrite !orb_true_r.
Qed.

Lemma text_values_invalid (max : Z) (t : token) :
  ~ valid max t -> part_values (text t) max = None.
Proof.
  destruct t as [p|a b]; simpl; intros Hbad.
  - destruct (Z.lt_ge_cases p 0) as [Hp|Hp].
    + rewrite dec_negative by assumption. apply leading_dash_values.
    + rewrite (part_values_page (dec p) max p);
        [|apply digits_free; [reflexivity|now apply dec_digits_only]|now apply Number_dec].
      destruct (Z.ltb_spec p 1); [reflexivity|].
      destruct (Z.ltb_spec max p); [reflexivity|]. lia.
  - destruct (Z.lt_ge_cases a 0) as [Ha|Ha].
    { rewrite (dec_negative a Ha). apply leading_dash_values. }
    destruct (Z.lt_ge_cases b 0) as [Hb|Hb].
    + rewrite (dec_negative b Hb).
      rewrite (part_values_range _ (dec a) EmptyString [dec_nonneg (- b)] max a 0);
        [| |now apply Number_dec|reflexivity].
      * destruct (Z.ltb_spec 0 a); [reflexivity|].
        destruct (Z.ltb_spec a 1); [reflexivity|]. lia.
      * apply (split_join "-" (dec a) [EmptyString; dec_nonneg (- b)]).
        repeat constructor.
        -- apply digits_free; [reflexivity|now apply dec_digits_only].
        -- apply digits_free; [reflexivity|]. apply dec_nonneg_digits. lia.
    + rewrite (part_values_range _ (dec a) (dec b) [] max a b);
        [|now apply range_token_split|now apply Number_dec..].
      destruct (Z.ltb_spec b a); [reflexivity|].
      destruct (Z.ltb_spec a 1); [reflexivity|].
      destruct (Z.ltb_spec max b); [reflexivity|]. lia.
Qed.

Lemma valid_dec (max : Z) (t : token) : {valid max t} + {~ valid max t}.
Proof.
  destruct t as [p|a b]; simpl.
  - destruct (Z_le_dec 1 p), (Z_le_dec p max); (left; lia) || (right; lia).
  - destruct (Z_le_dec 1 a), (Z_le_dec a b), (Z_le_dec b max); (left; lia) || (right; lia).
Qed.

(** What the tokens of a valid selection denote. *)
Lemma selection_denoted (max : Z) (ts : list token) :
  ts <> [] -> Forall (valid max) ts ->
  exists values,
    denoted (parts_of (selection ts)) max = Return values /\
    forall x, In x values <->
              exists t k, In t ts /\ covers t k /\ x = inject_Z (k - 1).
Proof.
  intros Hne Hvalid. rewrite Forall_forall in Hvalid.
  assert (exists values, denoted (parts_of (selection ts)) max = Return values) as [values Hd].
  { apply denoted_Return. rewrite selection_parts by assumption.
    apply Forall_forall. intros s Hs.
    apply in_map_iff in Hs as (u & <- & Hu). apply in_map_iff in Hu as (t & <- & Ht).
    rewrite part_values_trim.
    destruct (text_values_valid max t (Hvalid t Ht)) as (v & -> & _). discriminate. }
  exists values. split; [exact Hd|].
  intros x. rewrite (denoted_In _ _ _ Hd x), selection_parts by assumption. split.
  - intros (part & v & Hpart & Hv & Hx).
    apply in_map_iff in Hpart as (u & <- & Hu). apply in_map_iff in Hu as (t & <- & Ht).
    rewrite part_values_trim in Hv.
    destruct (text_values_valid max t (Hvalid t Ht)) as (v' & Hv' & Hiff).
    assert (v' = v) as -> by congruence.
    apply Hiff in Hx as (k & Hk & ->). now exists t, k.
  - intros (t & k & Ht & Hk & ->).
    destruct (text_values_valid max t (Hvalid t Ht)) as (v & Hv & Hiff).
    exists (trim (text t)), v. split; [|split].
    + now apply in_map, in_map.
    + now rewrite part_values_trim.
    + apply Hiff. now exists k.
Qed.

(** The list returned for denoted values: their sorted set. *)
Lemma returned_of_denoted (input : string) (max : Z) (values : list Q) :
  denoted (parts_of input) max = Return values ->
  parsePageString input max = Return (sort (add_all values [])) /\
  forall x, In x (sort (add_all values [])) <-> In x values.
Proof.
  intros Hd. split; [apply parse_Return; now exists values|].
  intros x. split.
  - intros Hx. apply Permutation_in with (l' := add_all values []) in Hx;
      [|symmetry; apply sort_perm].
    apply add_all_In in Hx as [Hx|[]]; [assumption| |constructor].
    now apply denoted_canonical with (parts_of input) max.
  - intros Hx. apply Permutation_in with (l := add_all values []); [apply sort_perm|].
    apply add_all_In; [now apply denoted_canonical with (parts_of input) max|constructor|].
    now left.
Qed.

(** X1.  A selection typed as a comma list of page numbers and ranges, all
    within 1..[max], is accepted: the call returns the strictly ascending
    list whose members are exactly the indices [k - 1] of the pages [k]
    some token asks for. *)
Theorem valid_selection_returned (max : Z) (ts : list token)
    (Hne : ts <> []) (Hvalid : Forall (valid max) ts) :
  exists r,
    parsePageString (selection ts) max = Return r /\
    StronglySorted Qlt r /\
    forall x, In x r <->
              exists t k, In t ts /\ covers t k /\ x = inject_Z (k - 1).
Proof.
  destruct (selection_denoted max ts Hne Hvalid) as (values & Hd & Hcovers).
  destruct (returned_of_denoted _ _ _ Hd) as (Hr & Hmem).
  exists (sort (add_all values [])). split; [exact Hr|].
  split; [exact (result_strict _ _ _ Hr)|].
  intros x. now rewrite Hmem.
Qed.

Lemma valid_selection_returned_witness :
  [Page 8; Range 3 5; Page 4] <> [] /\
  Forall (valid 10) [Page 8; Range 3 5; Page 4] /\
  exists r,
    parsePageString "8,3-5,4" 10 = Return r /\
    StronglySorted Qlt r /\
    forall x, In x r <->
              exists t k, In t [Page 8; Range 3 5; Page 4] /\ covers t k /\
                          x = inject_Z (k - 1).
Proof.
  assert ([Page 8; Range 3 5; Page 4] <> []) as Hne by discriminate.
  assert (Forall (valid 10) [Page 8; Range 3 5; Page 4]) as Hvalid
    by (repeat constructor; simpl; lia).
  split; [exact Hne|]. split; [exact Hvalid|].
  exact (valid_selection_returned 10 [Page 8; Range 3 5; Page 4] Hne Hvalid).
Defined.

(** X2.  A selection typed with integers is accepted only if every token
    is within 1..[max]: one page number or range out of bounds, negative or
    reversed, and the call throws. *)
Theorem invalid_selection_refused (max : Z) (ts : list token) (t : token)
    (Hin : In t ts) (Hbad : ~ valid max t) :
  exists m, parsePageString (selection ts) max = Throw m.
Proof.
  destruct (parsePageString (selection ts) max) as [r|m] eqn:H; [|now exists m].
  exfalso. apply parse_Return in H as (values & Hd & _).
  assert (exists v, denoted (parts_of (selection ts)) max = Return v) as Hex by now exists values.
  apply denoted_Return in Hex. rewrite selection_parts in Hex by (intros ->; destruct Hin).
  rewrite Forall_forall in Hex. apply (Hex (trim (text t))).
  - now apply in_map, in_map.
  - rewrite part_values_trim. now apply text_values_invalid.
Qed.

Lemma invalid_selection_refused_witness :
  In (Range 5 3) [Page 1; Range 5 3] /\ ~ valid 10 (Range 5 3) /\
  exists m, parsePageString "1,5-3" 10 = Throw m.
Proof.
  assert (In (Range 5 3) [Page 1; Range 5 3]) as Hin by (right; now left).
  assert (~ valid 10 (Range 5 3)) as Hbad by (simpl; lia).
  split; [exact Hin|]. split; [exact Hbad|].
  exact (invalid_selection_refused 10 [Page 1; Range 5 3] (Range 5 3) Hin Hbad).
Defined.

Lemma indices_strict (ks : list Z) :
  StronglySorted Z.lt ks -> StronglySorted Qlt (map inject_Z ks).
Proof.
  induction 1 as [|k ks Hks IH Hk]; simpl; constructor; [assumption|].
  apply Forall_forall. intros x Hx. apply in_map_iff in Hx as (j & <- & Hj).
  rewrite Forall_forall in Hk. rewrite <- Zlt_Qlt. now apply Hk.
Qed.

(** X20.  Typing a result back gives it again: for a strictly ascending,
    non-empty list of indices within [0, max), the comma list of the page
    numbers [k + 1] parses to exactly that list of indices. *)
Theorem result_typed_back (max : Z) (ks : list Z)
    (Hne : ks <> []) (Hsorted : StronglySorted Z.lt ks)
    (Hbounds : Forall (fun k => 0 <= k < max) ks) :
  parsePageString (selection (map (fun k => Page (k + 1)) ks)) max =
    Return (map inject_Z ks).
Proof.
  destruct (selection_denoted max (map (fun k => Page (k + 1)) ks)) as (values & Hd & Hcovers).
  - destruct ks; [congruence|discriminate].
  - apply Forall_forall. intros t Ht. apply in_map_iff in Ht as (k & <- & Hk).
    rewrite Forall_forall in Hbounds. specialize (Hbounds k Hk). simpl. lia.
  - destruct (returned_of_denoted _ _ _ Hd) as (Hr & Hmem).
    rewrite Hr. f_equal.
    apply strict_unique;
      [exact (result_strict _ _ _ Hr)|now apply indices_strict|].
    intros x. rewrite Hmem, Hcovers, in_map_iff. split.
    + intros (t & k & Ht & Hk & ->). apply in_map_iff in Ht as (j & <- & Hj).
      simpl in Hk. subst k. exists j. split; [f_equal; lia|assumption].
    + intros (j & <- & Hj). exists (Page (j + 1)), (j + 1). split; [|split].
      * apply in_map_iff. now exists j.
      * reflexivity.
      * f_equal. lia.
Qed.

Lemma result_typed_back_witness :
  [0; 2; 3] <> [] /\ StronglySorted Z.lt [0; 2; 3] /\
  parsePageString "1,3,4" 5 = Return [inject_Z 0; inject_Z 2; inject_Z 3].
Proof.
  assert ([0; 2; 3] <> []) as Hne by discriminate.
  assert (StronglySorted Z.lt [0; 2; 3]) as Hsorted by (repeat constructor; lia).
  split; [exact Hne|]. split; [exact Hsorted|].
  apply (result_typed_back 5 [0; 2; 3] Hne Hsorted).
  repeat constructor; lia.
Defined.

(** X3.  What the call returns is never empty and every value in it lies
    in [0, max): a document must have a page for anything to be
    accepted. *)
Theorem returned_list_bounds (input : string) (max : Z) (r : list Q)
    (H : parsePageString input max = Return r) :
  r <> [] /\
  (forall x, In x r -> (0 <= x)%Q /\ (x < inject_Z max)%Q) /\
  1 <= max.
Proof.
  assert (r <> []) as Hne.
  { apply parse_Return in H as (values & Hd & ->).
    apply denoted_nonempty in Hd; [|apply parts_of_nonempty].
    destruct values as [|x values]; [congruence|]. cbn [add_all fold_left].
    intros E.
    pose proof (sort_perm (fold_left (fun acc y => add y acc) values (add x []))) as Hp.
    rewrite E in Hp. apply Permutation_sym, Permutation_nil in Hp.
    exact (add_all_nonempty values (add x []) (add_nonempty x []) Hp). }
  split; [exact Hne|]. split; [intros x Hx; exact (result_in_bounds input max r x H Hx)|].
  destruct r as [|x r]; [congruence|].
  destruct (result_in_bounds input max (x :: r) x H (or_introl eq_refl)) as [Hlo Hhi].
  assert (0 < max); [|lia]. rewrite Zlt_Qlt. now apply Qle_lt_trans with x.
Qed.

Lemma returned_list_bounds_witness :
  parsePageString "2,1" 2 = Return [inject_Z 0; inject_Z 1] /\
  [inject_Z 0; inject_Z 1] <> [] /\ 1 <= 2.
Proof.
  assert (parsePageString "2,1" 2 = Return [inject_Z 0; inject_Z 1]) as H by reflexivity.
  split; [exact H|].
  destruct (returned_list_bounds "2,1" 2 _ H) as (Hne & _ & Hmax).
  split; [exact Hne|exact Hmax].
Defined.

(** *** Commas with nothing between them *)

Lemma empty_after_comma (s : string) :
  In EmptyString (map trim (snd (split_at "," (s ++ ",")))).
Proof.
  induction s as [|c s IH]; [now left|].
  cbn [append split_at]. destruct (split_at "," (s ++ ",")) as [p ps].
  destruct (Ascii.eqb c ","); simpl in *; auto.
Qed.

Lemma empty_between_commas (u v : string) :
  In EmptyString (map trim (snd (split_at "," (u ++ ",," ++ v)))).
Proof.
  induction u as [|c u IH].
  - cbn [append split_at]. destruct (split_at "," v) as [p ps]. now left.
  - cbn [append split_at] in *. destruct (split_at "," (u ++ String "," (String "," v))) as [p ps].
    destruct (Ascii.eqb c ","); simpl in *; auto.
Qed.

Lemma parts_of_tail (input : string) (p : string) :
  In p (map trim (snd (split_at "," input))) -> In p (parts_of input).
Proof.
  unfold parts_of, split. destruct (split_at "," input) as [q qs]. simpl. auto.
Qed.

(** X4.  A token with nothing in it is never skipped: an input that starts
    or ends with a comma, or has two commas in a row (or only blanks
    between them), makes the call throw, whatever else it holds. *)
Theorem comma_with_nothing_refused :
  (forall input max,
      In EmptyString (parts_of input) -> exists m, parsePageString input max = Throw m) /\
  (forall s max, exists m, parsePageString ("," ++ s) max = Throw m) /\
  (forall s max, exists m, parsePageString (s ++ ",") max = Throw m) /\
  (forall u v max, exists m, parsePageString (u ++ ",," ++ v) max = Throw m).
Proof.
  split; [exact empty_token_throws|]. split; [|split].
  - intros s max. apply empty_token_throws.
    unfold parts_of, split. cbn [append split_at]. destruct (split_at "," s). now left.
  - intros s max. apply empty_token_throws, parts_of_tail, empty_after_comma.
  - intros u v max. apply empty_token_throws, parts_of_tail, empty_between_commas.
Qed.

Lemma comma_with_nothing_refused_witness :
  In EmptyString (parts_of "1, ,2") /\ exists m, parsePageString "1, ,2" 5 = Throw m.
Proof.
  assert (In EmptyString (parts_of "1, ,2")) as H by (right; now left).
  split; [exact H|]. exact (proj1 comma_with_nothing_refused "1, ,2" 5 H).
Defined.

(** *** Negative numbers *)

Lemma trim_negative (n : Z) : n < 0 -> trim (dec n) = dec n.
Proof.
  intros Hn. rewrite dec_negative by assumption. unfold trim. cbn [trimStart].
  change (is_ws "-") with false. cbv iota. cbn [trimEnd].
  rewrite trimEnd_digits by (apply dec_nonneg_digits; lia).
  change (is_ws "-") with false. now destruct (dec_nonneg (- n)).
Qed.

(** X5.  A negative number is taken for a range, the minus sign being a
    dash with nothing before it: the call throws the "Invalid range"
    message that names it. *)
Theorem negative_number_refused (n max : Z) (Hn : n < 0) :
  parsePageString (dec n) max = Throw (invalid_range (dec n) max).
Proof.
  apply parse_Throw. rewrite single_token_parts by apply dec_comma_free.
  rewrite trim_negative by assumption. cbn [denoted].
  rewrite dec_negative by assumption. rewrite leading_dash_values.
  unfold part_message. cbn [includes_char]. now rewrite Ascii.eqb_refl.
Qed.

Lemma negative_number_refused_witness :
  -3 < 0 /\ parsePageString "-3" 10 = Throw (invalid_range "-3" 10).
Proof.
  split; [lia|]. apply (negative_number_refused (-3) 10). lia.
Defined.

End ParserMore.

(** * More about the handlers *)

Module AppMore.
Import Str Num Parser Denote Tokens App Ui Sample.
Import ParserFacts ResultFacts ParserSpec ParserMore.

Lemma message_or_nonempty (e : Thrown) (fallback : string) :
  fallback <> EmptyString -> message_or e fallback <> EmptyString.
Proof.
  intros Hf. unfold message_or. destruct (message e) as [m|]; [|assumption].
  destruct (String.eqb_spec m EmptyString); assumption.
Qed.

Lemma userFriendlyError_nonempty (e : Thrown) : userFriendlyError e <> EmptyString.
Proof. unfold userFriendlyError. destruct (signals_password e); discriminate. Qed.

Lemma thrown_message_nonempty (input : string) (max : Z) (m : string) :
  parsePageString input max = Throw m -> m <> EmptyString.
Proof.
  intros H. apply parse_Throw, denoted_Throw in H as (_ & part & _ & _ & _ & _ & ->).
  unfold part_message, invalid_range, invalid_page.
  destruct (includes_char "-" part); discriminate.
Qed.

Section Handlers.

Context {File Bytes Doc Page : Type}.
Variable env : Collaborators File Bytes Doc Page.

(** When the selection parses and every call succeeds, so does the [try]
    block, with what [save] returned and its URL. *)
Lemma extract_pages_done
    (f : File) (st : State File Bytes) (r : list Q)
    (existingPdfBytes pdfBytes : Bytes) (pdfDoc : Doc) (copiedPages : list Page)
    (url : string) :
  parsePageString (pageInput st) (totalPages st) = Return r ->
  arrayBuffer env f = Done existingPdfBytes ->
  load env existingPdfBytes = Done pdfDoc ->
  copyPages env pdfDoc r = Done copiedPages ->
  save env copiedPages = Done pdfBytes ->
  createObjectURL env pdfBytes = Done url ->
  extract_pages env f st = Done (pdfBytes, url).
Proof.
  intros Hparse Hbuffer Hload Hcopy Hsave Hurl. unfold extract_pages.
  rewrite Hparse. cbn [thrown_by then_].
  rewrite Hbuffer. cbn [then_]. rewrite Hload. cbn [then_].
  rewrite Hcopy. cbn [then_]. rewrite Hsave. cbn [then_]. now rewrite Hurl.
Qed.

(** X6.  When the selection parses and every collaborator call succeeds,
    [handleExtract] copies exactly the pages the parser returned, in the
    parser's ascending order, and ends with the saved bytes and their URL
    as output, no error and the processing flag down. *)
Theorem extract_success
    (f : File) (st : State File Bytes) (r : list Q)
    (existingPdfBytes pdfBytes : Bytes) (pdfDoc : Doc) (copiedPages : list Page)
    (url : string)
    (Hfile : file st = Some f) (Hidle : isProcessing st = false)
    (Hparse : parsePageString (pageInput st) (totalPages st) = Return r)
    (Hbuffer : arrayBuffer env f = Done existingPdfBytes)
    (Hload : load env existingPdfBytes = Done pdfDoc)
    (Hcopy : copyPages env pdfDoc r = Done copiedPages)
    (Hsave : save env copiedPages = Done pdfBytes)
    (Hurl : createObjectURL env pdfBytes = Done url) :
  outputPdfBytes (handleExtract env st) = Some pdfBytes /\
  outputPdfUrl (handleExtract env st) = Some url /\
  error (handleExtract env st) = None /\
  isProcessing (handleExtract env st) = false /\
  StronglySorted Qlt r.
Proof.
  unfold handleExtract. rewrite Hfile, Hidle.
  rewrite (extract_pages_done f _ r existingPdfBytes pdfBytes pdfDoc copiedPages url)
    by assumption.
  cbn. repeat split. exact (result_strict _ _ _ Hparse).
Qed.

(** X7.  When the parser refuses the selection, [handleExtract] shows the
    parser's message as it is and produces no output; the collaborators
    have no part in the outcome. *)
Theorem extract_parser_error
    (f : File) (st : State File Bytes) (m : string)
    (Hfile : file st = Some f) (Hidle : isProcessing st = false)
    (Hparse : parsePageString (pageInput st) (totalPages st) = Throw m) :
  error (handleExtract env st) = Some m /\
  outputPdfUrl (handleExtract env st) = None /\
  outputPdfBytes (handleExtract env st) = None /\
  isProcessing (handleExtract env st) = false /\
  forall env' : Collaborators File Bytes Doc Page,
    handleExtract env' st = handleExtract env st.
Proof.
  assert (forall env' : Collaborators File Bytes Doc Page,
             handleExtract env' st =
             setIsProcessing File Bytes false
               (setOutput File Bytes None None
                  (setError File Bytes (Some m)
                     (setOutput File Bytes None None
                        (setError File Bytes None (setIsProcessing File Bytes true st)))))) as E.
  { intros env'. unfold handleExtract. rewrite Hfile, Hidle.
    unfold extract_pages. cbn [pageInput totalPages setOutput setError setIsProcessing].
    rewrite Hparse. cbn [thrown_by then_]. unfold message_or. cbn [message].
    destruct (String.eqb_spec m EmptyString) as [->|_]; [|reflexivity].
    now elim (thrown_message_nonempty _ _ _ Hparse). }
  rewrite (E env). repeat split. intros env'. now rewrite (E env').
Qed.

(** X8.  A run of [handleExtract] ends in exactly one of two ways: an
    output (URL and bytes) and no error, or a non-empty error message and
    no output; in both the processing flag is down. *)
Theorem extract_outcome
    (f : File) (st : State File Bytes)
    (Hfile : file st = Some f) (Hidle : isProcessing st = false) :
  isProcessing (handleExtract env st) = false /\
  ((error (handleExtract env st) = None /\
    exists url pdfBytes,
      outputPdfUrl (handleExtract env st) = Some url /\
      outputPdfBytes (handleExtract env st) = Some pdfBytes) \/
   (outputPdfUrl (handleExtract env st) = None /\
    outputPdfBytes (handleExtract env st) = None /\
    exists m, error (handleExtract env st) = Some m /\ m <> EmptyString)).
Proof.
  unfold handleExtract. rewrite Hfile, Hidle.
  destruct (extract_pages env f _) as [[pdfBytes url]|e]; cbn.
  - split; [reflexivity|]. left. split; [reflexivity|]. now exists url, pdfBytes.
  - split; [reflexivity|]. right. repeat split.
    exists (message_or e unexpected). split; [reflexivity|].
    now apply message_or_nonempty.
Qed.

(** X9.  [handleExtract] never touches the file, its page count, the
    typed selection or the readiness of the engines; with no file, or while
    a run is in progress, it changes nothing at all. *)
Theorem extract_frame (st : State File Bytes) :
  file (handleExtract env st) = file st /\
  totalPages (handleExtract env st) = totalPages st /\
  pageInput (handleExtract env st) = pageInput st /\
  librariesReady (handleExtract env st) = librariesReady st /\
  (file st = None \/ isProcessing st = true -> handleExtract env st = st).
Proof.
  unfold handleExtract.
  destruct (file st) as [f|] eqn:Hfile; [|now repeat split].
  destruct (isProcessing st) eqn:Hbusy.
  - repeat split; try assumption.
  - destruct (extract_pages env f _) as [[pdfBytes url]|e]; cbn;
      (repeat split; try assumption); intros [H|H]; discriminate.
Qed.

(** X10.  Selecting a file starts afresh: the typed selection and the
    previous output are gone and the previous state plays no part.  If the
    file is read, it is kept with its page count and no error; if not, no
    file is kept, the page count is 0 and a non-empty message is shown. *)
Theorem select_starts_afresh
    (selectedFile : File) (st : State File Bytes)
    (Hidle : isProcessing st = false) (Hready : librariesReady st = true) :
  pageInput (handleFileSelect env selectedFile st) = EmptyString /\
  outputPdfUrl (handleFileSelect env selectedFile st) = None /\
  outputPdfBytes (handleFileSelect env selectedFile st) = None /\
  isProcessing (handleFileSelect env selectedFile st) = false /\
  match read_page_count env selectedFile with
  | Done n =>
      file (handleFileSelect env selectedFile st) = Some selectedFile /\
      totalPages (handleFileSelect env selectedFile st) = n /\
      error (handleFileSelect env selectedFile st) = None
  | Raised _ =>
      file (handleFileSelect env selectedFile st) = None /\
      totalPages (handleFileSelect env selectedFile st) = 0 /\
      exists m, error (handleFileSelect env selectedFile st) = Some m /\ m <> EmptyString
  end /\
  forall st' : State File Bytes,
    isProcessing st' = false -> librariesReady st' = true ->
    handleFileSelect env selectedFile st' = handleFileSelect env selectedFile st.
Proof.
  assert (forall st' : State File Bytes,
             isProcessing st' = false -> librariesReady st' = true ->
             handleFileSelect env selectedFile st' = handleFileSelect env selectedFile st)
    as Hsame.
  { intros st' Hidle' Hready'. unfold handleFileSelect, resetState.
    now rewrite Hidle, Hready, Hidle', Hready'. }
  unfold handleFileSelect in *. rewrite Hidle, Hready in *. cbn [negb] in *.
  destruct (read_page_count env selectedFile) as [n|e]; cbn.
  - repeat split. exact Hsame.
  - repeat split.
    + exists (userFriendlyError e). split; [reflexivity|apply userFriendlyError_nonempty].
    + exact Hsame.
Qed.

End Handlers.

Lemma extract_success_witness :
  outputPdfBytes (handleExtract toy (setPageInput "3, 1-2" (handleFileSelect toy 4%nat idle))) =
    Some [inject_Z 0; inject_Z 1; inject_Z 2].
Proof.
  exact (proj1 (extract_success toy 4%nat
                  (setPageInput "3, 1-2" (handleFileSelect toy 4%nat idle))
                  [inject_Z 0; inject_Z 1; inject_Z 2]
                  (pages_of 4) [inject_Z 0; inject_Z 1; inject_Z 2] 4%nat
                  [inject_Z 0; inject_Z 1; inject_Z 2] "blob:toy"
                  eq_refl eq_refl eq_refl eq_refl eq_refl eq_refl eq_refl eq_refl)).
Defined.

Lemma extract_parser_error_witness :
  error (handleExtract toy (setPageInput "5" (handleFileSelect toy 4%nat idle))) =
    Some (invalid_page "5" 4).
Proof.
  exact (proj1 (extract_parser_error toy 4%nat
                  (setPageInput "5" (handleFileSelect toy 4%nat idle))
                  (invalid_page "5" 4) eq_refl eq_refl eq_refl)).
Defined.

Lemma extract_outcome_witness :
  isProcessing (handleExtract toy (setPageInput "5" (handleFileSelect toy 4%nat idle))) = false.
Proof.
  exact (proj1 (extract_outcome toy 4%nat
                  (setPageInput "5" (handleFileSelect toy 4%nat idle)) eq_refl eq_refl)).
Defined.

Lemma select_starts_afresh_witness :
  isProcessing idle = false /\ librariesReady idle = true /\
  pageInput (handleFileSelect toy 4%nat idle) = EmptyString.
Proof.
  split; [reflexivity|]. split; [reflexivity|].
  exact (proj1 (select_starts_afresh toy 4%nat idle eq_refl eq_refl)).
Defined.

End AppMore.

(** * The component as a whole *)

Module UiFacts.
Import Str Num Parser Denote Tokens App Ui Sample.
Import ParserFacts ResultFacts ParserSpec ParserMore AppMore.

Section Component.

Context {File Bytes Doc Page : Type}.
Variable fileType : File -> string.
Variable env : Collaborators File Bytes Doc Page.

(** X11.  From the file to the output.  Select a file that loads, type a
    comma list of page numbers and ranges within its page count, extract:
    the pages handed to [copyPages] are the strictly ascending indices
    [k - 1] of the pages asked for, and what [save] makes of the copies is
    the output. *)
Theorem select_type_extract
    (selectedFile : File) (st : State File Bytes)
    (existingPdfBytes : Bytes) (pdfDoc : Doc) (ts : list token)
    (Hidle : isProcessing st = false) (Hready : librariesReady st = true)
    (Hbuffer : arrayBuffer env selectedFile = Done existingPdfBytes)
    (Hload : load env existingPdfBytes = Done pdfDoc)
    (Hne : ts <> []) (Hvalid : Forall (valid (getPageCount env pdfDoc)) ts) :
  exists pageIndices,
    StronglySorted Qlt pageIndices /\
    (forall x, In x pageIndices <->
               exists t k, In t ts /\ covers t k /\ x = inject_Z (k - 1)) /\
    forall copiedPages pdfBytes url,
      copyPages env pdfDoc pageIndices = Done copiedPages ->
      save env copiedPages = Done pdfBytes ->
      createObjectURL env pdfBytes = Done url ->
      let st' := handleExtract env
                   (setPageInput (selection ts) (handleFileSelect env selectedFile st)) in
      outputPdfBytes st' = Some pdfBytes /\ outputPdfUrl st' = Some url /\
      error st' = None /\ isProcessing st' = false.
Proof.
  destruct (selection_denoted _ ts Hne Hvalid) as (values & Hd & Hcovers).
  destruct (returned_of_denoted _ _ _ Hd) as (Hr & Hmem).
  exists (sort (add_all values [])).
  split; [exact (result_strict _ _ _ Hr)|]. split; [intros x; now rewrite Hmem|].
  intros copiedPages pdfBytes url Hcopy Hsave Hurl st'.
  assert (read_page_count env selectedFile = Done (getPageCount env pdfDoc)) as Hcount.
  { unfold read_page_count. rewrite Hbuffer. cbn [then_]. now rewrite Hload. }
  subst st'. unfold handleFileSelect. rewrite Hidle, Hready, Hcount. cbn [negb].
  unfold handleExtract.
  cbn [file isProcessing setPageInput setIsProcessing setTotalPages setError setFile].
  rewrite (extract_pages_done env selectedFile _ (sort (add_all values []))
             existingPdfBytes pdfBytes pdfDoc copiedPages url)
    by (assumption || exact Hr).
  cbn. now repeat split.
Qed.

(** *** The uploader *)

Lemma select_forgets (f : File) (st st' : State File Bytes) :
  isProcessing st = false -> librariesReady st = true ->
  isProcessing st' = false -> librariesReady st' = true ->
  handleFileSelect env f st' = handleFileSelect env f st.
Proof.
  intros Hidle Hready Hidle' Hready'. unfold handleFileSelect, resetState.
  now rewrite Hidle, Hready, Hidle', Hready'.
Qed.

Lemma select_stays_ready (f : File) (st : State File Bytes) :
  isProcessing st = false -> librariesReady st = true ->
  isProcessing (handleFileSelect env f st) = false /\
  librariesReady (handleFileSelect env f st) = true.
Proof.
  intros Hidle Hready. unfold handleFileSelect. rewrite Hidle, Hready. cbn [negb].
  destruct (read_page_count env f); cbn; now rewrite Hready.
Qed.

Lemma pick_files_handed (p : pick File) (st : State File Bytes) :
  isProcessing st = false ->
  pick_files fileType env p st =
  match handed fileType p with
  | Some f => handleFileSelect env f st
  | None => st
  end.
Proof.
  intros Hidle. destruct p as [[|first others]|[|first others]];
    unfold pick_files, handed, handleDrop, handleFileChange; rewrite ?Hidle;
    try reflexivity.
  match goal with |- context [String.eqb ?a ?b] => now destruct (String.eqb a b) end.
Qed.

(** X12.  However often the uploader is used in a row, with the engines
    ready and no file being read, only the last pick that hands a file
    over counts: the state is what selecting that one file in the first
    state gives, every earlier pick leaving no trace; if no pick hands a
    file over (nothing dropped, or a first dropped file that is no PDF,
    even with a PDF after it) the state is as it was.  While a file is
    being read no pick changes anything. *)
Theorem last_pick_decides (ps : list (pick File)) (st : State File Bytes) :
  (isProcessing st = false -> librariesReady st = true ->
   picks fileType env ps st =
   match last_handed fileType ps with
   | Some f => handleFileSelect env f st
   | None => st
   end) /\
  (isProcessing st = true -> picks fileType env ps st = st).
Proof.
  split.
  - revert st. induction ps as [|p rest IH]; intros st Hidle Hready; [reflexivity|].
    unfold picks in *. cbn [fold_left last_handed].
    assert (isProcessing (pick_files fileType env p st) = false /\
            librariesReady (pick_files fileType env p st) = true) as [Hidle' Hready'].
    { rewrite pick_files_handed by assumption.
      destruct (handed fileType p); [now apply select_stays_ready|now split]. }
    rewrite (IH _ Hidle' Hready').
    destruct (last_handed fileType rest) as [f|].
    + now apply select_forgets.
    + now apply pick_files_handed.
  - intros Hbusy. unfold picks. induction ps as [|p rest IH]; [reflexivity|].
    cbn [fold_left].
    assert (pick_files fileType env p st = st) as ->; [|exact IH].
    destruct p as [files|[|first others]];
      unfold pick_files, handleDrop, handleFileChange; rewrite ?Hbusy; try reflexivity.
    unfold handleFileSelect. now rewrite Hbusy.
Qed.

(** *** The engines *)

Lemma fire_all_flags (evs : list event) (fl : flags) (st : State File Bytes) :
  librariesReady st = pdfLibLoaded fl && pdfJsLoaded fl ->
  pdfLibLoaded (fst (fire_all evs (fl, st))) = pdfLibLoaded fl || loaded PdfLibScript evs /\
  pdfJsLoaded (fst (fire_all evs (fl, st))) = pdfJsLoaded fl || loaded PdfJsScript evs /\
  librariesReady (snd (fire_all evs (fl, st))) =
    (pdfLibLoaded fl || loaded PdfLibScript evs) && (pdfJsLoaded fl || loaded PdfJsScript evs) /\
  file (snd (fire_all evs (fl, st))) = file st /\
  totalPages (snd (fire_all evs (fl, st))) = totalPages st /\
  pageInput (snd (fire_all evs (fl, st))) = pageInput st /\
  isProcessing (snd (fire_all evs (fl, st))) = isProcessing st /\
  errorShown (snd (fire_all evs (fl, st))) = errorShown st || failed evs.
Proof.
  revert fl st. induction evs as [|ev evs IH]; intros fl st Hinv.
  - simpl. rewrite !orb_false_r. now repeat split.
  - unfold fire_all in *. cbn [fold_left].
    destruct fl as [lib js], ev as [[]|[]]; cbn [fire pdfLibLoaded pdfJsLoaded] in *.
    + specialize (IH {| pdfLibLoaded := true; pdfJsLoaded := js |}
                     (checkAndSetReady {| pdfLibLoaded := true; pdfJsLoaded := js |} st)).
      unfold checkAndSetReady in *. cbn [pdfLibLoaded pdfJsLoaded andb] in *.
      destruct js; cbn [loaded existsb orb] in *;
        (destruct IH as (-> & -> & -> & -> & -> & -> & -> & ->);
         [first [reflexivity | rewrite Hinv; now destruct lib]|]);
        rewrite ?orb_true_r; now repeat split.
    + specialize (IH {| pdfLibLoaded := lib; pdfJsLoaded := true |}
                     (checkAndSetReady {| pdfLibLoaded := lib; pdfJsLoaded := true |} st)).
      unfold checkAndSetReady in *. cbn [pdfLibLoaded pdfJsLoaded] in *.
      destruct lib; cbn [loaded existsb orb andb] in *;
        (destruct IH as (-> & -> & -> & -> & -> & -> & -> & ->);
         [first [reflexivity | rewrite Hinv; now destruct js]|]);
        rewrite ?orb_true_r; now repeat split.
    + specialize (IH {| pdfLibLoaded := lib; pdfJsLoaded := js |}
                     (setError File Bytes (Some pdfLib_failed) st) Hinv).
      cbn [loaded failed existsb orb pdfLibLoaded pdfJsLoaded] in *.
      destruct IH as (-> & -> & -> & -> & -> & -> & -> & ->).
      repeat split. cbn. now rewrite orb_true_r.
    + specialize (IH {| pdfLibLoaded := lib; pdfJsLoaded := js |}
                     (setError File Bytes (Some pdfJs_failed) st) Hinv).
      cbn [loaded failed existsb orb pdfLibLoaded pdfJsLoaded] in *.
      destruct IH as (-> & -> & -> & -> & -> & -> & -> & ->).
      repeat split. cbn. now rewrite orb_true_r.
Qed.

Lemma loaded_In (s : script) (evs : list event) :
  loaded s evs = true <-> In (Onload s) evs.
Proof.
  unfold loaded. rewrite existsb_exists. split.
  - intros (ev & Hin & H). destruct ev as [[]|[]], s; try discriminate; assumption.
  - intros Hin. exists (Onload s). split; [assumption|now destruct s].
Qed.

Lemma engines_state
    (libDefined jsDefined : bool) (evs : list event) (st : State File Bytes) :
  librariesReady st = false ->
  librariesReady (engines libDefined jsDefined evs st) =
    (libDefined || loaded PdfLibScript evs) && (jsDefined || loaded PdfJsScript evs) /\
  file (engines libDefined jsDefined evs st) = file st /\
  totalPages (engines libDefined jsDefined evs st) = totalPages st /\
  pageInput (engines libDefined jsDefined evs st) = pageInput st /\
  isProcessing (engines libDefined jsDefined evs st) = isProcessing st /\
  errorShown (engines libDefined jsDefined evs st) = errorShown st || failed evs.
Proof.
  intros Hnot. unfold engines, mount.
  destruct libDefined, jsDefined; cbn [andb];
    match goal with
    | |- context [fire_all evs (?fl, ?s)] =>
        destruct (fire_all_flags evs fl s) as (_ & _ & E & F1 & F2 & F3 & F4 & F5);
          [try reflexivity; cbn; now rewrite ?Hnot|]
    end;
    cbn [pdfLibLoaded pdfJsLoaded] in E; now rewrite E, F1, F2, F3, F4, F5.
Qed.

(** X13.  The engines are ready exactly when both are there, each either
    defined when the effect runs or after its script has loaded, in
    whatever order the events come; a script that fails never makes them
    ready, and once ready they stay so.  The effect leaves the file, the
    page count, the selection and the processing flag alone. *)
Theorem engines_ready_iff
    (libDefined jsDefined : bool) (evs : list event) (st : State File Bytes)
    (Hnot : librariesReady st = false) :
  (librariesReady (engines libDefined jsDefined evs st) = true <->
   (libDefined = true \/ In (Onload PdfLibScript) evs) /\
   (jsDefined = true \/ In (Onload PdfJsScript) evs)) /\
  (forall more,
      librariesReady (engines libDefined jsDefined evs st) = true ->
      librariesReady (engines libDefined jsDefined (evs ++ more) st) = true) /\
  file (engines libDefined jsDefined evs st) = file st /\
  totalPages (engines libDefined jsDefined evs st) = totalPages st /\
  pageInput (engines libDefined jsDefined evs st) = pageInput st /\
  isProcessing (engines libDefined jsDefined evs st) = isProcessing st.
Proof.
  destruct (engines_state libDefined jsDefined evs st Hnot) as (E & F1 & F2 & F3 & F4 & _).
  split; [|split; [|now repeat split]].
  - rewrite E, andb_true_iff, !orb_true_iff, !loaded_In. reflexivity.
  - intros more. rewrite E.
    destruct (engines_state libDefined jsDefined (evs ++ more)%list st Hnot) as (-> & _).
    unfold loaded. rewrite !existsb_app, !andb_true_iff, !orb_true_iff. tauto.
Qed.

(** X14.  Until both engines are there a selected file is not taken: the
    "not ready" message is set and the rest of the state is as it was. *)
Theorem select_before_ready
    (libDefined jsDefined : bool) (evs : list event) (st : State File Bytes)
    (selectedFile : File)
    (Hnot : librariesReady st = false) (Hidle : isProcessing st = false)
    (Hmissing : (libDefined = false /\ ~ In (Onload PdfLibScript) evs) \/
                (jsDefined = false /\ ~ In (Onload PdfJsScript) evs)) :
  handleFileSelect env selectedFile (engines libDefined jsDefined evs st) =
    setError File Bytes (Some not_ready) (engines libDefined jsDefined evs st) /\
  file (handleFileSelect env selectedFile (engines libDefined jsDefined evs st)) = file st /\
  error (handleFileSelect env selectedFile (engines libDefined jsDefined evs st)) =
    Some not_ready.
Proof.
  destruct (engines_state libDefined jsDefined evs st Hnot)
    as (Hready & Hfile & _ & _ & Hbusy & _).
  assert (librariesReady (engines libDefined jsDefined evs st) = false) as Hr.
  { rewrite Hready. apply andb_false_iff.
    destruct Hmissing as [[-> H]|[-> H]]; [left|right]; cbn [orb];
      match goal with
      | |- loaded ?s evs = false =>
          destruct (loaded s evs) eqn:Hl; [apply loaded_In in Hl; now elim H|reflexivity]
      end. }
  unfold handleFileSelect. rewrite Hbusy, Hidle, Hr. cbn. now rewrite Hfile.
Qed.

(** *** What is shown *)

Lemma truthy_Some (m : string) : m <> EmptyString -> truthy (Some m) = true.
Proof. intros H. simpl. now destruct (String.eqb_spec m EmptyString). Qed.

(** X15.  An extraction that fails is never silent: the red banner is
    shown, and neither the "Extraction Complete!" block nor the preview. *)
Theorem extract_failure_shown
    (f : File) (st : State File Bytes) (e : Thrown)
    (Hfile : file st = Some f) (Hidle : isProcessing st = false)
    (Hfail : extract_pages env f st = Raised e) :
  errorShown (handleExtract env st) = true /\
  resultShown (handleExtract env st) = false /\
  previewShown (handleExtract env st) = false.
Proof.
  unfold errorShown, resultShown, previewShown, resultShown, handleExtract.
  rewrite Hfile, Hidle.
  assert (extract_pages env f
            (setOutput File Bytes None None
               (setError File Bytes None (setIsProcessing File Bytes true st))) = Raised e) as ->
    by exact Hfail.
  cbn [error outputPdfUrl outputPdfBytes setIsProcessing setOutput setError truthy andb].
  repeat split. apply truthy_Some, message_or_nonempty. discriminate.
Qed.

(** X16.  After a file is selected, the controls are shown, without
    banner, exactly when the file was read; when it was not, the uploader
    is shown again, with the banner.  No result block in either case. *)
Theorem select_outcome_shown
    (selectedFile : File) (st : State File Bytes)
    (Hidle : isProcessing st = false) (Hready : librariesReady st = true) :
  match read_page_count env selectedFile with
  | Done _ =>
      renderContent (handleFileSelect env selectedFile st) = Controls /\
      errorShown (handleFileSelect env selectedFile st) = false
  | Raised _ =>
      renderContent (handleFileSelect env selectedFile st) = Uploader /\
      errorShown (handleFileSelect env selectedFile st) = true
  end /\
  resultShown (handleFileSelect env selectedFile st) = false.
Proof.
  unfold renderContent, errorShown, resultShown, handleFileSelect.
  rewrite Hidle, Hready. cbn [negb].
  destruct (read_page_count env selectedFile) as [n|e];
    cbn [error outputPdfUrl file librariesReady resetState
         setIsProcessing setTotalPages setFile setError truthy negb];
    rewrite Hready; repeat split.
  apply truthy_Some, userFriendlyError_nonempty.
Qed.

(** X17.  While the engines load, a component that mounted with no file
    and no error shows the "Initializing" panel; as soon as a script has
    failed it shows the banner alone, until both engines are there; then
    the uploader.  The banner is there exactly when a script has failed. *)
Theorem engines_screen
    (libDefined jsDefined : bool) (evs : list event) (st : State File Bytes)
    (Hnot : librariesReady st = false) (Hfile : file st = None)
    (Herror : error st = None) :
  renderContent (engines libDefined jsDefined evs st) =
    (if (libDefined || loaded PdfLibScript evs) && (jsDefined || loaded PdfJsScript evs)
     then Uploader
     else if failed evs then Nothing else Initializing) /\
  errorShown (engines libDefined jsDefined evs st) = failed evs.
Proof.
  destruct (engines_state libDefined jsDefined evs st Hnot)
    as (Hr & Hf & _ & _ & _ & He).
  assert (errorShown st = false) as Hquiet by (unfold errorShown; now rewrite Herror).
  rewrite Hquiet in He. cbn [orb] in He.
  assert (renderContent (engines libDefined jsDefined evs st) =
            (if librariesReady (engines libDefined jsDefined evs st) then Uploader
             else if errorShown (engines libDefined jsDefined evs st)
                  then Nothing else Initializing)) as Hscreen.
  { unfold renderContent, errorShown. rewrite Hf, Hfile.
    now destruct (librariesReady (engines libDefined jsDefined evs st)). }
  rewrite Hscreen, Hr, He. now split.
Qed.

End Component.

Lemma last_pick_decides_witness :
  isProcessing idle = false /\ librariesReady idle = true /\
  picks toy_type toy
    [Browsed [3%nat]; Dropped [5%nat; 4%nat]; Dropped [2%nat; 7%nat]; Dropped [1%nat]] idle =
  handleFileSelect toy 2%nat idle.
Proof.
  split; [reflexivity|]. split; [reflexivity|].
  exact (proj1 (last_pick_decides toy_type toy
                  [Browsed [3%nat]; Dropped [5%nat; 4%nat]; Dropped [2%nat; 7%nat];
                   Dropped [1%nat]] idle) eq_refl eq_refl).
Defined.

Lemma select_type_extract_witness :
  exists pageIndices,
    StronglySorted Qlt pageIndices /\
    (forall x, In x pageIndices <->
               exists t k, In t [Page 3; Range 1 2] /\ covers t k /\ x = inject_Z (k - 1)) /\
    forall copiedPages pdfBytes url,
      copyPages toy 4%nat pageIndices = Done copiedPages ->
      save toy copiedPages = Done pdfBytes ->
      createObjectURL toy pdfBytes = Done url ->
      let st' := handleExtract toy
                   (setPageInput (selection [Page 3; Range 1 2])
                      (handleFileSelect toy 4%nat idle)) in
      outputPdfBytes st' = Some pdfBytes /\ outputPdfUrl st' = Some url /\
      error st' = None /\ isProcessing st' = false.
Proof.
  apply (select_type_extract toy 4%nat idle (pages_of 4) 4%nat [Page 3; Range 1 2]
           eq_refl eq_refl eq_refl eq_refl).
  - discriminate.
  - repeat constructor; simpl; lia.
Defined.

Lemma extract_failure_shown_witness :
  errorShown (handleExtract toy (setPageInput "5" (handleFileSelect toy 4%nat idle))) = true.
Proof.
  exact (proj1 (extract_failure_shown toy 4%nat
                  (setPageInput "5" (handleFileSelect toy 4%nat idle))
                  {| constructor_name := "Error"; message := Some (invalid_page "5" 4) |}
                  eq_refl eq_refl eq_refl)).
Defined.

Lemma select_outcome_shown_witness :
  renderContent (handleFileSelect toy 4%nat idle) = Controls.
Proof.
  exact (proj1 (proj1 (select_outcome_shown toy 4%nat idle eq_refl eq_refl))).
Defined.

Lemma engines_screen_witness :
  renderContent (engines false false [Onerror PdfLibScript; Onload PdfJsScript] mounted) =
    Nothing.
Proof.
  exact (proj1 (engines_screen false false [Onerror PdfLibScript; Onload PdfJsScript]
                  mounted eq_refl eq_refl eq_refl)).
Defined.

Lemma engines_ready_iff_witness :
  librariesReady mounted = false /\
  librariesReady (engines false false [Onload PdfJsScript; Onload PdfLibScript] mounted) = true.
Proof.
  split; [reflexivity|].
  apply (proj1 (engines_ready_iff false false [Onload PdfJsScript; Onload PdfLibScript]
                  mounted eq_refl)).
  split; right; simpl; auto.
Defined.

Lemma select_before_ready_witness :
  librariesReady mounted = false /\ isProcessing mounted = false /\
  error (handleFileSelect toy 4%nat (engines false false [Onload PdfLibScript] mounted)) =
    Some not_ready.
Proof.
  split; [reflexivity|]. split; [reflexivity|].
  apply (select_before_ready toy false false [Onload PdfLibScript] mounted 4%nat
           eq_refl eq_refl).
  right. split; [reflexivity|]. intros [H|[]]. discriminate H.
Defined.

End UiFacts.

(** * The preview *)

Module PreviewFacts.
Import App Preview.

Section RenderPdf.

Context {Bytes Pdf PageProxy Viewport Context : Type}.
Variable js : PdfJs Bytes Pdf PageProxy Viewport Context.

Lemma firstn_seq_le (k start len : nat) :
  (k <= len)%nat -> firstn k (seq start len) = seq start k.
Proof.
  revert start len. induction k as [|k IH]; intros start len Hk; [reflexivity|].
  destruct len as [|len]; [lia|]. simpl. f_equal. apply IH. lia.
Qed.

(** Where the loop stops, the container holds, after what it held, one
    canvas for each page with a context among the pages gone through. *)
Lemma render_pages_prefix (pdf : Pdf) (pages : list nat) (done : list (Canvas Viewport)) :
  exists k,
    (k <= List.length pages)%nat /\
    map of_page (fst (render_pages js pdf pages done)) =
      (map of_page done ++ filter (has_context js) (firstn k pages))%list /\
    (snd (render_pages js pdf pages done) = None -> k = List.length pages).
Proof.
  revert done. induction pages as [|i rest IH]; intros done.
  - exists 0%nat. simpl. now rewrite app_nil_r.
  - cbn [render_pages]. destruct (getPage js pdf i) as [page|e].
    + destruct (getContext js i) as [context|] eqn:Hctx.
      * assert (has_context js i = true) as Hh by (unfold has_context; now rewrite Hctx).
        destruct (render js page context (getViewport js page)) as [[]|e].
        -- destruct (IH (done ++ [{| of_page := i; sized_by := getViewport js page |}])%list)
             as (k & Hk & E & Hnone).
           exists (S k). split; [simpl; lia|]. split; [|intros H; simpl; f_equal; auto].
           rewrite E, map_app, <- app_assoc. cbn [map app firstn filter of_page].
           now rewrite Hh.
        -- exists 1%nat. split; [simpl; lia|]. split; [|discriminate].
           cbn [fst firstn filter]. rewrite Hh. now rewrite map_app.
      * assert (has_context js i = false) as Hh by (unfold has_context; now rewrite Hctx).
        destruct (IH done) as (k & Hk & E & Hnone).
        exists (S k). split; [simpl; lia|]. split; [|intros H; simpl; f_equal; auto].
        rewrite E. cbn [firstn filter]. now rewrite Hh.
    + exists 0%nat. split; [simpl; lia|]. split; [|discriminate].
      simpl. now rewrite app_nil_r.
Qed.

Lemma render_pages_sized (pdf : Pdf) (pages : list nat) (done : list (Canvas Viewport)) :
  Forall (well_sized js pdf) done ->
  Forall (well_sized js pdf) (fst (render_pages js pdf pages done)).
Proof.
  revert done. induction pages as [|i rest IH]; intros done Hdone; [assumption|].
  cbn [render_pages]. destruct (getPage js pdf i) as [page|e] eqn:Hpage; [|assumption].
  destruct (getContext js i) as [context|]; [|now apply IH].
  assert (Forall (well_sized js pdf)
            (done ++ [{| of_page := i; sized_by := getViewport js page |}])) as Hmore.
  { apply Forall_app. split; [assumption|]. constructor; [|constructor]. now exists page. }
  destruct (render js page context (getViewport js page)) as [[]|e]; [now apply IH|assumption].
Qed.

Lemma render_pages_complete (pdf : Pdf) (pages : list nat) (done : list (Canvas Viewport)) :
  (forall i, In i pages ->
     exists page, getPage js pdf i = Done page /\
       forall context, getContext js i = Some context ->
                       render js page context (getViewport js page) = Done tt) ->
  snd (render_pages js pdf pages done) = None.
Proof.
  revert done. induction pages as [|i rest IH]; intros done Hall; [reflexivity|].
  cbn [render_pages].
  destruct (Hall i (or_introl eq_refl)) as (page & -> & Hrender).
  assert (forall j, In j rest ->
            exists page, getPage js pdf j = Done page /\
              forall context, getContext js j = Some context ->
                              render js page context (getViewport js page) = Done tt) as Hrest
    by (intros j Hj; apply Hall; now right).
  destruct (getContext js i) as [context|]; [|now apply IH].
  rewrite (Hrender context eq_refl). now apply IH.
Qed.

(** The canvases [renderPdf] leaves: those of the pages with a context
    among the first [k], all the pages when it ends without error. *)
Lemma renderPdf_prefix (pdfBytes : Bytes) (pdf : Pdf) :
  getDocument js pdfBytes = Done pdf ->
  exists k,
    (k <= numPages js pdf)%nat /\
    map of_page (canvases (renderPdf js pdfBytes)) = filter (has_context js) (seq 1 k) /\
    (error (renderPdf js pdfBytes) = None -> k = numPages js pdf).
Proof.
  intros Hdoc. unfold renderPdf. rewrite Hdoc.
  destruct (render_pages_prefix pdf (seq 1 (numPages js pdf)) []) as (k & Hk & E & Hnone).
  rewrite length_seq in Hk, Hnone.
  rewrite firstn_seq_le in E by assumption. cbn [map app] in E.
  exists k. split; [assumption|].
  destruct (render_pages js pdf (seq 1 (numPages js pdf)) []) as [done [e|]];
    cbn [fst snd error canvases] in *; (split; [assumption|]); [discriminate|].
  intros _. now apply Hnone.
Qed.

(** X18.  However the rendering goes, [renderPdf] ends with the loading
    flag down and either no error or the one preview message; the canvases
    in the container are, in page order, those of the pages with a 2d
    context among the first [k] pages, for some [k] that is the whole
    document when there is no error; each is sized by its page's
    viewport.  So there are never more canvases than pages and no page
    twice. *)
Theorem preview_canvases (pdfBytes : Bytes) (pdf : Pdf)
    (Hdoc : getDocument js pdfBytes = Done pdf) :
  isLoading (renderPdf js pdfBytes) = false /\
  (error (renderPdf js pdfBytes) = None \/ error (renderPdf js pdfBytes) = Some no_preview) /\
  (exists k,
      (k <= numPages js pdf)%nat /\
      map of_page (canvases (renderPdf js pdfBytes)) = filter (has_context js) (seq 1 k) /\
      (error (renderPdf js pdfBytes) = None -> k = numPages js pdf)) /\
  Forall (well_sized js pdf) (canvases (renderPdf js pdfBytes)) /\
  (List.length (canvases (renderPdf js pdfBytes)) <= numPages js pdf)%nat.
Proof.
  destruct (renderPdf_prefix pdfBytes pdf Hdoc) as (k & Hk & E & Hnone).
  assert (List.length (canvases (renderPdf js pdfBytes)) <= numPages js pdf)%nat as Hlen.
  { rewrite <- (length_map of_page), E.
    eapply Nat.le_trans; [apply filter_length_le|]. now rewrite length_seq. }
  assert (Forall (well_sized js pdf) (canvases (renderPdf js pdfBytes))) as Hsized.
  { pose proof (render_pages_sized pdf (seq 1 (numPages js pdf)) [] (Forall_nil _)) as H.
    unfold renderPdf. rewrite Hdoc.
    now destruct (render_pages js pdf (seq 1 (numPages js pdf)) []) as [done [e|]]. }
  split; [|split; [|split; [now exists k|now split]]].
  - unfold renderPdf. rewrite Hdoc.
    now destruct (render_pages js pdf (seq 1 (numPages js pdf)) []) as [done [e|]].
  - unfold renderPdf. rewrite Hdoc.
    destruct (render_pages js pdf (seq 1 (numPages js pdf)) []) as [done [e|]];
      [now right|now left].
Qed.

(** X19.  When the document loads and every page loads and renders, the
    preview ends without error and the container holds exactly one canvas
    for each page that got a 2d context, in page order. *)
Theorem preview_complete (pdfBytes : Bytes) (pdf : Pdf)
    (Hdoc : getDocument js pdfBytes = Done pdf)
    (Hpages : forall i, (1 <= i <= numPages js pdf)%nat ->
       exists page, getPage js pdf i = Done page /\
         forall context, getContext js i = Some context ->
                         render js page context (getViewport js page) = Done tt) :
  error (renderPdf js pdfBytes) = None /\
  isLoading (renderPdf js pdfBytes) = false /\
  map of_page (canvases (renderPdf js pdfBytes)) =
    filter (has_context js) (seq 1 (numPages js pdf)).
Proof.
  assert (error (renderPdf js pdfBytes) = None) as Herr.
  { unfold renderPdf. rewrite Hdoc.
    pose proof (render_pages_complete pdf (seq 1 (numPages js pdf)) []) as Hnone.
    destruct (render_pages js pdf (seq 1 (numPages js pdf)) []) as [done [e|]]; [|reflexivity].
    cbn [snd] in Hnone. discriminate Hnone.
    intros i Hi. apply Hpages. apply in_seq in Hi. lia. }
  destruct (renderPdf_prefix pdfBytes pdf Hdoc) as (k & _ & E & Hk).
  split; [exact Herr|]. split; [|now rewrite E, (Hk Herr)].
  unfold renderPdf. rewrite Hdoc.
  now destruct (render_pages js pdf (seq 1 (numPages js pdf)) []) as [done [e|]].
Qed.

End RenderPdf.

Lemma preview_canvases_witness :
  getDocument Sample.toy_js (Sample.pages_of 3) = Done 3%nat /\
  isLoading (renderPdf Sample.toy_js (Sample.pages_of 3)) = false.
Proof.
  split; [reflexivity|].
  exact (proj1 (preview_canvases Sample.toy_js (Sample.pages_of 3) 3%nat eq_refl)).
Defined.

Lemma preview_complete_witness :
  map of_page (canvases (renderPdf Sample.toy_js (Sample.pages_of 3))) = [1; 2; 3]%nat.
Proof.
  apply (preview_complete Sample.toy_js (Sample.pages_of 3) 3%nat eq_refl).
  intros i _. exists i. split; [reflexivity|]. intros [] _. reflexivity.
Defined.

End PreviewFacts.
